(** * Selector-driven extraction: [parse_product_page] of [src/parser.py]

    The function parses an HTML text with lxml, walks the configured data
    points and evaluates one CSS or XPath selector per data point.  lxml is
    an external library: its parser and its two query methods are taken as
    they are used by the code, a fallible parser and two fallible queries.
    A query answers a list of matches; an XPath expression that is not a
    node set answers a [str], a [float] or a [bool] instead, which the code
    assigns to [extracted_elements] like any other answer. *)

From stdpp Require Import gmap strings list fin_maps.
From Stdlib Require Import Ascii String NArith.

Local Open Scope string_scope.
Local Open Scope list_scope.

(** ** Text

    A Python [str] is modelled by a Rocq string whose characters are the
    code points below 256. *)

Module PyStr.

(** [str.lower] on one character: A-Z and the upper-case letters of the
    Latin-1 block (all of U+00C0..U+00DE but the multiplication sign). *)
Definition lower_char (c : ascii) : ascii :=
  let n := N_of_ascii c in
  if ((65 <=? n) && (n <=? 90))%N
     || ((192 <=? n) && (n <=? 222) && negb (n =? 215))%N
  then ascii_of_N (n + 32)
  else c.

Fixpoint lower (s : string) : string :=
  match s with
  | EmptyString => EmptyString
  | String c s' => String (lower_char c) (lower s')
  end.

(** The characters [str.strip] removes: [str.isspace] below 256. *)
Definition is_space (c : ascii) : bool :=
  let n := N_of_ascii c in
  ((9 <=? n) && (n <=? 13))%N || ((28 <=? n) && (n <=? 32))%N
  || (n =? 133)%N || (n =? 160)%N.

Fixpoint lstrip (s : string) : string :=
  match s with
  | EmptyString => EmptyString
  | String c s' => if is_space c then lstrip s' else s
  end.

Fixpoint rstrip (s : string) : string :=
  match s with
  | EmptyString => EmptyString
  | String c s' =>
      match rstrip s' with
      | EmptyString => if is_space c then EmptyString else String c EmptyString
      | r => String c r
      end
  end.

Definition strip (s : string) : string := rstrip (lstrip s).

(** Truth value of a string in a condition: [if text:]. *)
Definition truthy (s : string) : bool :=
  match s with
  | EmptyString => false
  | String _ _ => true
  end.

End PyStr.

(** ** Data model *)

(** What [except Exception] can catch. *)
Record Exception := Exc { exc_name : string }.

(** An lxml element is observed by the code through [text_content()] only. *)
Record Element := { text_content : string }.

(** One member of the sequence a query answers: a string (an attribute or
    text result, [isinstance(el, str)]), an element ([hasattr(el,
    'text_content')]), or a value that is neither. *)
Inductive Match :=
| MStr (s : string)
| MElement (el : Element)
| MOther.

(** What a query hands back when it does not raise.  [cssselect] answers a
    list of elements.  [xpath] answers a list for a node set, and one [str],
    [float] or [bool] for an expression of that type ([string(...)],
    [count(...)], [boolean(...)]). *)
Inductive Answer :=
| Items (l : list Match)
| Str (s : string)
| Float
| Bool.

Inductive QueryOutcome :=
| Raises (e : Exception)
| Returns (extracted_elements : Answer).

(** The parsed document, as the object with the two query methods. *)
Record DocumentTree := {
  cssselect : string → QueryOutcome;
  xpath : string → QueryOutcome
}.

(** One entry of [config['data_points']]; every key may be missing. *)
Record SelectorConfig := {
  cfg_selector : option string;
  cfg_type : option string;
  cfg_multi : option bool
}.

Record Config := { data_points : option (gmap string SelectorConfig) }.

(** The values stored in [results]. *)
Inductive Value :=
| VNone
| VStr (s : string)
| VList (l : list string).

(** The calls made on the tree, recorded to speak about evaluation. *)
Inductive QueryCall :=
| CallCss (selector : string)
| CallXPath (selector : string).

(** ** The extraction loop *)

(** [[] if multi else None] *)
Definition empty_form (multi : bool) : Value :=
  if multi then VList [] else VNone.

(** Lines 59-65, one turn of the inner loop. *)
Definition normalize (processed_data : list string) (el : Match) : list string :=
  match el with
  | MStr s => processed_data ++ [PyStr.strip s]
  | MElement e =>
      let text := PyStr.strip (text_content e) in
      if PyStr.truthy text then processed_data ++ [text] else processed_data
  | MOther => processed_data
  end.

(** Lines 58-65, on the items the [for] of line 59 walks. *)
Definition process (extracted_elements : list Match) : list string :=
  foldl normalize [] extracted_elements.

(** Walking a [str] gives its characters, each a [str] of length one. *)
Fixpoint characters (s : string) : list Match :=
  match s with
  | EmptyString => []
  | String c s' => MStr (String c EmptyString) :: characters s'
  end.

(** [for el in extracted_elements], line 59: the items walked, or the
    [TypeError] of a [float] or [bool], which is not iterable.  The line
    stands after the [try] statement. *)
Definition iterate (extracted_elements : Answer) : Exception + list Match :=
  match extracted_elements with
  | Items l => inr l
  | Str s => inr (characters s)
  | Float | Bool => inl (Exc "TypeError")
  end.

(** Lines 67-70. *)
Definition resolve (multi : bool) (processed_data : list string) : Value :=
  if multi then VList processed_data
  else match processed_data with
       | x :: _ => VStr x
       | [] => VNone
       end.

(** The body of the [try] statement, lines 44-56. *)
Inductive Selected :=
| Extracted (call : QueryCall) (extracted_elements : Answer)
| Unsupported
| Caught (call : QueryCall) (e : Exception).

Definition select (tree : DocumentTree) (selector_type selector : string) : Selected :=
  if String.eqb selector_type "css" then
    match cssselect tree selector with
    | Returns extracted_elements => Extracted (CallCss selector) extracted_elements
    | Raises e => Caught (CallCss selector) e
    end
  else if String.eqb selector_type "xpath" then
    match xpath tree selector with
    | Returns extracted_elements => Extracted (CallXPath selector) extracted_elements
    | Raises e => Caught (CallXPath selector) e
    end
  else Unsupported.

(** [selector_config.get('type', 'css').lower()] *)
Definition selector_type_of (selector_config : SelectorConfig) : string :=
  PyStr.lower (default "css" (cfg_type selector_config)).

(** [selector_config.get('multi', False)] *)
Definition multi_of (selector_config : SelectorConfig) : bool :=
  default false (cfg_multi selector_config).

(** One turn of the outer loop, lines 35-70: the calls it makes on the tree,
    and the value it stores under its key or the exception that leaves the
    function.  A path that stores ends in exactly one assignment
    [results[data_key] = ...]. *)
Definition eval_field (tree : DocumentTree) (selector_config : SelectorConfig)
  : list QueryCall * (Exception + Value) :=
  let selector := cfg_selector selector_config in
  let selector_type := selector_type_of selector_config in
  let multi := multi_of selector_config in
  match selector with
  | None => ([], inr (empty_form multi))
  | Some selector =>
      if negb (PyStr.truthy selector) then ([], inr (empty_form multi))
      else
        match select tree selector_type selector with
        | Unsupported => ([], inr (empty_form multi))
        | Caught call _ => ([call], inr (empty_form multi))
        | Extracted call extracted_elements =>
            match iterate extracted_elements with
            | inl e => ([call], inl e)
            | inr items => ([call], inr (resolve multi (process items)))
            end
        end
  end.

(** The state of the loop: the calls made so far, [results], and the
    exception that has stopped the loop, if one has. *)
Record LoopState := {
  calls : list QueryCall;
  results : gmap string Value;
  raised : option Exception
}.

Definition loop_body (tree : DocumentTree) (data_key : string)
    (selector_config : SelectorConfig) (st : LoopState) : LoopState :=
  match raised st with
  | Some _ => st
  | None =>
      match eval_field tree selector_config with
      | (cs, inr v) =>
          {| calls := calls st ++ cs; results := <[data_key := v]> (results st);
             raised := None |}
      | (cs, inl e) =>
          {| calls := calls st ++ cs; results := results st; raised := Some e |}
      end
  end.

(** Lines 32-70 on a parsed tree, up to the end of the loop or to the turn
    that raises. *)
Definition extract (tree : DocumentTree) (rules : gmap string SelectorConfig)
  : LoopState :=
  map_fold (loop_body tree) {| calls := []; results := ∅; raised := None |} rules.

(** What the function hands back after the loop: [results] (line 72), or
    the exception that stopped the loop. *)
Definition finish (st : LoopState) : Exception + gmap string Value :=
  match raised st with
  | Some e => inl e
  | None => inr (results st)
  end.

(** [parse_product_page]: line 31 is outside every [try], so what the parser
    raises leaves the function. *)
Definition parse_product_page
    (fromstring : string → Exception + DocumentTree)
    (html_content : string) (config : Config)
  : Exception + gmap string Value :=
  match fromstring html_content with
  | inl e => inl e
  | inr tree => finish (extract tree (default ∅ (data_points config)))
  end.

(** ** A page to run the definitions on

    The text [html] below, as lxml answers for it: [cssselect] refuses
    pseudo-elements and unbalanced brackets, the XPath namespace axis
    answers tuples, and the XPath functions answer a value of their type. *)

Module Demo.

Definition el (text : string) : Match := MElement {| text_content := text |}.

Definition page : DocumentTree := {|
  cssselect sel :=
    if String.eqb sel "h1" then Returns (Items [el " Widget "])
    else if String.eqb sel "span.p" then Returns (Items [el "A"; el ""; el " B "])
    else if String.eqb sel "img::attr(src)" then Raises (Exc "ExpressionError")
    else if String.eqb sel "span[" then Raises (Exc "SelectorSyntaxError")
    else Returns (Items []);
  xpath sel :=
    if String.eqb sel "//h1" then Returns (Items [el " Widget "])
    else if String.eqb sel "//img/@src" then Returns (Items [MStr "  /a.png "])
    else if String.eqb sel "//span/text()" then Returns (Items [MStr "A"; MStr " B "])
    else if String.eqb sel "//namespace::*" then Returns (Items [MOther])
    else if String.eqb sel "count(//h1)" then Returns Float
    else if String.eqb sel "boolean(//h1)" then Returns Bool
    else if String.eqb sel "string(//h1)" then Returns (Str " Widget ")
    else if String.eqb sel "//span[" then Raises (Exc "XPathEvalError")
    else Returns (Items [])
|}.

(** The parser on the texts used below: lxml raises [ParserError]
    ("Document is empty") on an empty or blank text; any other text stands
    for the page above. *)
Definition fromstring (html_content : string) : Exception + DocumentTree :=
  if PyStr.truthy (PyStr.strip html_content) then inr page
  else inl (Exc "ParserError").

Definition rule (selector type : string) (multi : bool) : SelectorConfig :=
  {| cfg_selector := Some selector; cfg_type := Some type; cfg_multi := Some multi |}.

Definition rules : gmap string SelectorConfig :=
  <["title" := rule "h1" "css" false]>
  (<["tags" := rule "span.p" "CSS" true]>
  (<["image" := rule "//img/@src" "XPath" false]>
  (<["broken" := rule "span[" "css" true]>
  (<["blank" := rule "" "css" true]>
  (<["odd" := rule "h1" "regex" false]> ∅))))).

(** The rules above with one more, whose XPath expression is a number. *)
Definition counting_rules : gmap string SelectorConfig :=
  <["count" := rule "count(//h1)" "xpath" false]> rules.

Definition html : string :=
  "<div><h1> Widget </h1><span class='p'>A</span><span class='p'></span>"
  +:+ "<span class='p'> B </span><img src='  /a.png '></div>".

End Demo.

(** ** What a rule makes the loop do, read off the tree *)

(** The query of a rule's turn raises [e]: the selector is not empty and the
    method its lowered type picks raises. *)
Definition evaluation_raises (tree : DocumentTree) (sc : SelectorConfig)
    (e : Exception) : Prop :=
  ∃ selector, cfg_selector sc = Some selector ∧ selector ≠ "" ∧
    ((selector_type_of sc = "css" ∧ cssselect tree selector = Raises e) ∨
     (selector_type_of sc = "xpath" ∧ xpath tree selector = Raises e)).

(** The query of a rule's turn hands back [a]. *)
Definition evaluation_answers (tree : DocumentTree) (sc : SelectorConfig)
    (a : Answer) : Prop :=
  ∃ selector, cfg_selector sc = Some selector ∧ selector ≠ "" ∧
    ((selector_type_of sc = "css" ∧ cssselect tree selector = Returns a) ∨
     (selector_type_of sc = "xpath" ∧ xpath tree selector = Returns a)).

(** The query of a rule's turn answers the raw match sequence [els]: a list
    with these items, or a string with these characters. *)
Definition evaluation_returns (tree : DocumentTree) (sc : SelectorConfig)
    (els : list Match) : Prop :=
  ∃ a, evaluation_answers tree sc a ∧ iterate a = inr els.

(** The query of a rule's turn answers a number or a truth value, which
    line 59 cannot walk. *)
Definition answers_scalar (tree : DocumentTree) (sc : SelectorConfig) : Prop :=
  ∃ a, evaluation_answers tree sc a ∧ iterate a = inl (Exc "TypeError").

(** [not selector]: the key is missing, null or the empty string. *)
Definition selector_missing (sc : SelectorConfig) : Prop :=
  cfg_selector sc = None ∨ cfg_selector sc = Some "".

Definition with_type (sc : SelectorConfig) (type : string) : SelectorConfig :=
  {| cfg_selector := cfg_selector sc; cfg_type := Some type; cfg_multi := cfg_multi sc |}.

(** The entry one raw match adds, in the words of the match normalizer: a
    string gives its trimmed value, an element its trimmed text unless that
    is empty, anything else nothing. *)
Definition contribution (el : Match) : option string :=
  match el with
  | MStr s => Some (PyStr.strip s)
  | MElement e =>
      if decide (PyStr.strip (text_content e) = "") then None
      else Some (PyStr.strip (text_content e))
  | MOther => None
  end.

(** A match the empty-text rule drops: an element whose trimmed text is
    empty. *)
Definition blank_element (el : Match) : bool :=
  match el with
  | MElement e => negb (PyStr.truthy (PyStr.strip (text_content e)))
  | _ => false
  end.

(** The value a turn stores, when it stores one. *)
Definition stored (tree : DocumentTree) (sc : SelectorConfig) : option Value :=
  match (eval_field tree sc).2 with
  | inr v => Some v
  | inl _ => None
  end.

(** ** Reading a result *)

Definition is_list (v : Value) : bool :=
  match v with
  | VList _ => true
  | _ => false
  end.

(** The strings a stored value holds. *)
Definition strings_of (v : Value) : list string :=
  match v with
  | VNone => []
  | VStr s => [s]
  | VList l => l
  end.

Definition with_multi (sc : SelectorConfig) (multi : bool) : SelectorConfig :=
  {| cfg_selector := cfg_selector sc; cfg_type := cfg_type sc; cfg_multi := Some multi |}.

(** The text a raw match is read from: the string itself or the text
    content of the element. *)
Definition raw_text (el : Match) : option string :=
  match el with
  | MStr s => Some s
  | MElement e => Some (text_content e)
  | MOther => None
  end.

(** The call the turn of a rule makes, lines 46 and 48, if it makes one. *)
Definition query_of (sc : SelectorConfig) : option QueryCall :=
  match cfg_selector sc with
  | None => None
  | Some selector =>
      if negb (PyStr.truthy selector) then None
      else if String.eqb (selector_type_of sc) "css" then Some (CallCss selector)
      else if String.eqb (selector_type_of sc) "xpath" then Some (CallXPath selector)
      else None
  end.

Definition first_char (s : string) : option ascii :=
  match s with
  | EmptyString => None
  | String c _ => Some c
  end.

Fixpoint last_char (s : string) : option ascii :=
  match s with
  | EmptyString => None
  | String c s' =>
      match last_char s' with
      | None => Some c
      | Some d => Some d
      end
  end.

Fixpoint all_space (s : string) : bool :=
  match s with
  | EmptyString => true
  | String c s' => PyStr.is_space c && all_space s'
  end.

(** No white space at either end. *)
Definition trimmed (s : string) : bool :=
  negb (from_option PyStr.is_space false (first_char s))
  && negb (from_option PyStr.is_space false (last_char s)).

(** ** The objects of a call

    Python hands objects about by reference.  A call of
    [parse_product_page] builds the [results] dictionary (line 32), the
    [{}] of line 34, and in a turn of the loop a list for each [[]] of
    lines 40, 43, 50, 55 and 58; it appends to [processed_data] (lines 61
    and 65) and assigns to the items of [results] (lines 40, 50, 55, 68 and
    70), where a list is stored by reference.  The module has no variable
    of its own, lines 1 and 2 only import.  The store holds the dictionaries
    and lists of the process, those of earlier calls among them, which their
    callers keep and may change; nothing is ever taken out of it, an object
    that is no longer referred to stays where it is.  [html_content] is a
    string and cannot change; the configuration is only read ([get],
    [items], [lower]), the tree is built by the parser inside the call and
    the answers of its queries are only walked: they stay values. *)

Module Store.

(** What a dictionary holds under a key. *)
Inductive Slot :=
| SNone
| SStr (s : string)
| SRef (l : positive).

Inductive Object :=
| ODict (items : gmap string Slot)
| OList (items : list string).

(** A new object gets an address that no object has. *)
Definition alloc (o : Object) (h : gmap positive Object)
  : positive * gmap positive Object :=
  let l := fresh (dom h) in (l, <[l := o]> h).

(** [processed_data.append(x)] *)
Definition append (processed_data : positive) (x : string)
    (h : gmap positive Object) : gmap positive Object :=
  alter (λ o, match o with
              | OList xs => OList (xs ++ [x])
              | ODict _ => o
              end) processed_data h.

(** [results[data_key] = slot] *)
Definition setitem (results : positive) (data_key : string) (slot : Slot)
    (h : gmap positive Object) : gmap positive Object :=
  alter (λ o, match o with
              | ODict items => ODict (<[data_key := slot]> items)
              | OList _ => o
              end) results h.

(** [[] if multi else None] *)
Definition empty_form (multi : bool) (h : gmap positive Object)
  : Slot * gmap positive Object :=
  if multi then let '(l, h) := alloc (OList []) h in (SRef l, h)
  else (SNone, h).

(** Lines 59-65, one turn of the inner loop. *)
Definition normalize (processed_data : positive) (h : gmap positive Object)
    (el : Match) : gmap positive Object :=
  match el with
  | MStr s => append processed_data (PyStr.strip s) h
  | MElement e =>
      let text := PyStr.strip (text_content e) in
      if PyStr.truthy text then append processed_data text h else h
  | MOther => h
  end.

(** Lines 67-70: the list itself, or [processed_data[0] if processed_data
    else None]. *)
Definition resolve (multi : bool) (processed_data : positive)
    (h : gmap positive Object) : Slot :=
  if multi then SRef processed_data
  else match h !! processed_data with
       | Some (OList (x :: _)) => SStr x
       | _ => SNone
       end.

(** One turn of the outer loop, lines 35-70. *)
Definition eval_field (tree : DocumentTree) (selector_config : SelectorConfig)
    (h : gmap positive Object) : (Exception + Slot) * gmap positive Object :=
  let selector := cfg_selector selector_config in
  let selector_type := selector_type_of selector_config in
  let multi := multi_of selector_config in
  match selector with
  | None => let '(slot, h) := empty_form multi h in (inr slot, h)
  | Some selector =>
      if negb (PyStr.truthy selector)
      then let '(slot, h) := empty_form multi h in (inr slot, h)
      else
        let '(_, h) := alloc (OList []) h in
        match select tree selector_type selector with
        | Unsupported => let '(slot, h) := empty_form multi h in (inr slot, h)
        | Caught _ _ => let '(slot, h) := empty_form multi h in (inr slot, h)
        | Extracted _ extracted_elements =>
            let '(processed_data, h) := alloc (OList []) h in
            match iterate extracted_elements with
            | inl e => (inl e, h)
            | inr items =>
                let h := foldl (normalize processed_data) h items in
                (inr (resolve multi processed_data h), h)
            end
        end
  end.

Record LoopState := {
  store : gmap positive Object;
  raised : option Exception
}.

Definition loop_body (tree : DocumentTree) (results : positive)
    (data_key : string) (selector_config : SelectorConfig) (st : LoopState)
  : LoopState :=
  match raised st with
  | Some _ => st
  | None =>
      match eval_field tree selector_config (store st) with
      | (inr slot, h) =>
          {| store := setitem results data_key slot h; raised := None |}
      | (inl e, h) => {| store := h; raised := Some e |}
      end
  end.

(** [parse_product_page] on the store: the address of the dictionary handed
    back, or the exception, and the store the call leaves. *)
Definition parse_product_page
    (fromstring : string → Exception + DocumentTree)
    (html_content : string) (config : Config) (h : gmap positive Object)
  : (Exception + positive) * gmap positive Object :=
  match fromstring html_content with
  | inl e => (inl e, h)
  | inr tree =>
      let '(results, h) := alloc (ODict ∅) h in
      let '(_, h) := alloc (ODict ∅) h in
      let st := map_fold (loop_body tree results)
                  {| store := h; raised := None |}
                  (default ∅ (data_points config)) in
      match raised st with
      | Some e => (inl e, store st)
      | None => (inr results, store st)
      end
  end.

(** A slot of the store stands for a value: a reference for the list it
    leads to. *)
Definition represents (h : gmap positive Object) (slot : Slot) (v : Value) : Prop :=
  match slot, v with
  | SNone, VNone => True
  | SStr s, VStr s' => s = s'
  | SRef l, VList xs => h !! l = Some (OList xs)
  | _, _ => False
  end.

(** The dictionary at [r] reads as the mapping [m], and no list is shared:
    the lists it refers to are none of the objects of [old] and no two keys
    refer to the same list. *)
Definition holds (old : gset positive) (h : gmap positive Object) (r : positive)
    (m : gmap string Value) : Prop :=
  ∃ items,
    h !! r = Some (ODict items) ∧
    (∀ k, option_Forall2 (represents h) (items !! k) (m !! k)) ∧
    (∀ k l, items !! k = Some (SRef l) →
       (l ∉ old) ∧ (∀ k', items !! k' = Some (SRef l) → k = k')).

(** The dictionary at [r] read out of the store, its references followed. *)
Definition read_slot (h : gmap positive Object) (slot : Slot) : option Value :=
  match slot with
  | SNone => Some VNone
  | SStr s => Some (VStr s)
  | SRef l =>
      match h !! l with
      | Some (OList xs) => Some (VList xs)
      | _ => None
      end
  end.

Definition read (h : gmap positive Object) (r : positive)
  : option (gmap string Value) :=
  match h !! r with
  | Some (ODict items) => Some (omap (read_slot h) items)
  | _ => None
  end.

End Store.

(** What the loop keeps true, turn after turn: it has stopped on the store
    when it has stopped on values, the objects of [h0] are as they were, and
    the dictionary at [r] reads as [results] and shares no list. *)
Definition loop_invariant (h0 : gmap positive Store.Object) (r : positive)
    (ss : Store.LoopState) (ps : LoopState) : Prop :=
  Store.raised ss = raised ps ∧
  h0 ⊆ Store.store ss ∧
  Store.holds (dom h0) (Store.store ss) r (results ps).

(** * Logging set-up: [src/utils/logger.py]

    The module keeps one flag, [_logger_configured], and works on the root
    logger of the [logging] library, of which the code touches the level and
    the list of handlers. *)

Module Logger.

(** The numeric levels of [logging]. *)
Definition CRITICAL : Z := 50.
Definition ERROR : Z := 40.
Definition WARNING : Z := 30.
Definition INFO : Z := 20.
Definition DEBUG : Z := 10.
Definition NOTSET : Z := 0.

Definition LOG_LEVEL_ENV_VAR : string := "APP_LOG_LEVEL".
Definition DEFAULT_LOG_LEVEL : Z := INFO.

(** [str.upper] on one character below 256.  The sharp s becomes two
    characters and the micro sign and the y with diaeresis leave the range,
    so the result is a list of code points. *)
Definition upper_char (c : ascii) : list N :=
  let n := N_of_ascii c in
  if ((97 <=? n) && (n <=? 122))%N
     || ((224 <=? n) && (n <=? 254) && negb (n =? 247))%N
  then [(n - 32)%N]
  else if (n =? 223)%N then [83%N; 83%N]
  else if (n =? 181)%N then [924%N]
  else if (n =? 255)%N then [376%N]
  else [n].

Fixpoint upper (s : string) : list N :=
  match s with
  | EmptyString => []
  | String c s' => upper_char c ++ upper s'
  end.

Fixpoint code_points (s : string) : list N :=
  match s with
  | EmptyString => []
  | String c s' => N_of_ascii c :: code_points s'
  end.

(** The dictionary of lines 53-60. *)
Definition level_names : list (string * Z) :=
  [("CRITICAL", CRITICAL); ("ERROR", ERROR); ("WARNING", WARNING);
   ("INFO", INFO); ("DEBUG", DEBUG); ("NOTSET", NOTSET)].

Fixpoint level_map_get (table : list (string * Z)) (level_str : list N)
  : option Z :=
  match table with
  | [] => None
  | (name, level) :: table' =>
      if decide (level_str = code_points name) then Some level
      else level_map_get table' level_str
  end.

(** What the module asks of its surroundings: the process environment and
    whether [logging.FileHandler(log_file)] raises. *)
Record OS := {
  environ : gmap string string;
  file_handler_error : string → option Exception
}.

Inductive Handler :=
| StreamHandler
| FileHandler (log_file : string).

Record State := {
  logger_configured : bool;
  root_level : Z;
  root_handlers : list Handler;
  closed_handlers : list Handler;
  setup_errors : list (string * Exception)
}.

(** Lines 51-61. *)
Definition resolve_level (os : OS) (level : option Z) : Z :=
  match level with
  | Some level => level
  | None =>
      let level_str := upper (default "INFO" (environ os !! LOG_LEVEL_ENV_VAR)) in
      default DEFAULT_LOG_LEVEL (level_map_get level_names level_str)
  end.

(** [if log_file:] *)
Definition log_file_given (log_file : option string) : option string :=
  match log_file with
  | Some f => if PyStr.truthy f then Some f else None
  | None => None
  end.

Definition configure_logging (os : OS) (level : option Z)
    (log_file : option string) (force_reconfigure : bool) (st : State) : State :=
  if logger_configured st && negb force_reconfigure then st
  else
    let level := resolve_level os level in
    let handlers := if force_reconfigure then [] else root_handlers st in
    let closed :=
      if force_reconfigure then closed_handlers st ++ root_handlers st
      else closed_handlers st in
    let handlers := handlers ++ [StreamHandler] in
    match log_file_given log_file with
    | None =>
        {| logger_configured := true; root_level := level;
           root_handlers := handlers; closed_handlers := closed;
           setup_errors := setup_errors st |}
    | Some f =>
        match file_handler_error os f with
        | None =>
            {| logger_configured := true; root_level := level;
               root_handlers := handlers ++ [FileHandler f];
               closed_handlers := closed; setup_errors := setup_errors st |}
        | Some e =>
            {| logger_configured := true; root_level := level;
               root_handlers := handlers; closed_handlers := closed;
               setup_errors := setup_errors st ++ [(f, e)] |}
        end
    end.

(** [get_logger]: the state it leaves and the name of the logger handed
    back. *)
Definition get_logger (os : OS) (name : string) (st : State) : State * string :=
  if negb (logger_configured st)
  then (configure_logging os None None false st, name)
  else (st, name).

(** Importing the module: line 17 clears the flag, lines 130-131 configure.
    The root logger comes as the process has left it. *)
Definition import_module (os : OS) (level : Z) (handlers : list Handler) : State :=
  let st := {| logger_configured := false; root_level := level;
               root_handlers := handlers; closed_handlers := [];
               setup_errors := [] |} in
  if negb (logger_configured st) then configure_logging os None None false st
  else st.

(** The calls a program makes on the module once it is imported. *)
Inductive Call :=
| Configure (level : option Z) (log_file : option string) (force_reconfigure : bool)
| GetLogger (name : string).

Definition step (os : OS) (st : State) (call : Call) : State :=
  match call with
  | Configure level log_file force_reconfigure =>
      configure_logging os level log_file force_reconfigure st
  | GetLogger name => (get_logger os name st).1
  end.

Definition run (os : OS) (calls : list Call) (st : State) : State :=
  foldl (step os) st calls.

Definition forced (call : Call) : bool :=
  match call with
  | Configure _ _ force_reconfigure => force_reconfigure
  | GetLogger _ => false
  end.

(** The handlers a call that passes the guard attaches after the console
    handler. *)
Definition file_handlers (os : OS) (log_file : option string) : list Handler :=
  match log_file_given log_file with
  | Some f =>
      match file_handler_error os f with
      | None => [FileHandler f]
      | Some _ => []
      end
  | None => []
  end.

(** The level of the first name that equals [value] up to case. *)
Fixpoint level_of_name (table : list (string * Z)) (value : string) : option Z :=
  match table with
  | [] => None
  | (name, level) :: table' =>
      if decide (PyStr.lower value = PyStr.lower name) then Some level
      else level_of_name table' value
  end.

(** A name written in the capitals A-Z with no S twice in a row. *)
Fixpoint capitals (name : string) : bool :=
  match name with
  | EmptyString => true
  | String c name' =>
      (65 <=? N_of_ascii c)%N && (N_of_ascii c <=? 90)%N &&
      match name' with
      | String d _ => negb ((N_of_ascii c =? 83)%N && (N_of_ascii d =? 83)%N)
      | EmptyString => true
      end &&
      capitals name'
  end.

End Logger.

(** * Saving results: [src/output_handler.py]

    Paths follow [pathlib] on POSIX (CPython 3.8 to 3.13): a root and the
    list of the components that are neither empty nor a single dot. *)

Module OutputHandler.

Record Path := { root : string; parts : list string }.

(** [s.split('/')] *)
Fixpoint split_slash (s : string) : list string :=
  match s with
  | EmptyString => [EmptyString]
  | String c s' =>
      if Ascii.eqb c "/" then EmptyString :: split_slash s'
      else match split_slash s' with
           | x :: xs => String c x :: xs
           | [] => [String c EmptyString]
           end
  end.

Fixpoint leading_slashes (s : string) : nat :=
  match s with
  | String c s' => if Ascii.eqb c "/" then S (leading_slashes s') else 0
  | EmptyString => 0
  end.

Definition is_component (x : string) : bool :=
  negb (String.eqb x "") && negb (String.eqb x ".").

(** [Path(s)]: exactly two leading slashes are kept as a root of their own,
    any other number is one slash. *)
Definition parse (s : string) : Path :=
  {| root := match leading_slashes s with
             | 0 => ""
             | 2 => "//"
             | _ => "/"
             end;
     parts := List.filter is_component (split_slash s) |}.

(** [p / q]: an absolute right operand replaces the left one. *)
Definition joinpath (p q : Path) : Path :=
  if String.eqb (root q) "" then {| root := root p; parts := parts p ++ parts q |}
  else q.

(** [p.name] *)
Definition name (p : Path) : string := List.last (parts p) "".

(** [name.rfind('.')] *)
Fixpoint rfind_dot (s : string) : option nat :=
  match s with
  | EmptyString => None
  | String c s' =>
      match rfind_dot s' with
      | Some i => Some (S i)
      | None => if Ascii.eqb c "." then Some 0 else None
      end
  end.

(** [s[:n]] and [s[n:]] *)
Fixpoint take (n : nat) (s : string) : string :=
  match n, s with
  | S n', String c s' => String c (take n' s')
  | _, _ => EmptyString
  end.

Fixpoint drop (n : nat) (s : string) : string :=
  match n, s with
  | S n', String _ s' => drop n' s'
  | _, _ => s
  end.

(** [p.suffix] on the name: the part from the last dot on, unless that dot
    is the first or the last character. *)
Definition name_suffix (nm : string) : string :=
  match rfind_dot nm with
  | Some i =>
      if (0 <? i)%nat && (i <? String.length nm - 1)%nat then drop i nm else ""
  | None => ""
  end.

Definition suffix (p : Path) : string := name_suffix (name p).

(** [p.with_suffix(suffix)] for a suffix that is well formed, as [".json"]
    is: an empty name raises [ValueError]. *)
Definition with_suffix (p : Path) (new_suffix : string) : Exception + Path :=
  let nm := name p in
  if String.eqb nm "" then inl (Exc "ValueError")
  else
    let old_suffix := name_suffix nm in
    let nm' :=
      if String.eqb old_suffix "" then nm +:+ new_suffix
      else take (String.length nm - String.length old_suffix) nm +:+ new_suffix in
    inr {| root := root p; parts := removelast (parts p) ++ [nm'] |}.

(** What [json.dumps(data, indent=4, ensure_ascii=False)] does. *)
Inductive DumpOutcome :=
| Dumped (serialized_data : string)
| DumpTypeError (e : Exception)
| DumpRaises (e : Exception).

(** What lines 83-86 do on the file system: the file is written and the
    resolved path returned, or an exception leaves the block, an [IOError]
    or not, and the file, if it was opened, is left with what got
    written. *)
Inductive WriteOutcome :=
| Returned (resolved : Path)
| RaisedIn (io_error : bool) (e : Exception) (left_behind : option string).

(** The two arguments of [_serialize_data]. *)
Inductive Payload (D : Type) :=
| Product (product_data : D)
| Products (products_list : list D).
Arguments Product {D} _.
Arguments Products {D} _.

(** The surroundings: the serializer, the file system calls, and the file a
    path leads to. *)
Record Env (D : Type) := {
  dumps : Payload D → DumpOutcome;
  mkdir_error : Path → option Exception;
  write : Path → string → WriteOutcome;
  locate : Path → positive
}.
Arguments dumps {D} _ _.
Arguments mkdir_error {D} _ _.
Arguments write {D} _ _ _.
Arguments locate {D} _ _.

Record Handler := { output_dir : Path }.

(** [__init__] *)
Definition init {D} (env : Env D) (dir : string) : Exception + Handler :=
  let p := parse dir in
  match mkdir_error env p with
  | Some e => inl e
  | None => inr {| output_dir := p |}
  end.

(** [_serialize_data] *)
Definition _serialize_data {D} (env : Env D) (data : Payload D)
  : Exception + string :=
  match dumps env data with
  | Dumped s => inr s
  | DumpTypeError _ => inl (Exc "ValueError")
  | DumpRaises e => inl e
  end.

(** Lines 77-79 and 112-114. *)
Definition target (self : Handler) (filename : string) : Exception + Path :=
  let file_path := joinpath (output_dir self) (parse filename) in
  if negb (String.eqb (suffix file_path) ".json")
  then with_suffix file_path ".json"
  else inr file_path.

(** The body the two saving methods share, on the files of the system. *)
Definition save {D} (env : Env D) (self : Handler) (data : Payload D)
    (filename : string) (files : gmap positive string)
  : (Exception + Path) * gmap positive string :=
  match target self filename with
  | inl e => (inl e, files)
  | inr file_path =>
      match _serialize_data env data with
      | inl e => (inl e, files)
      | inr serialized_data =>
          match write env file_path serialized_data with
          | Returned resolved =>
              (inr resolved, <[locate env file_path := serialized_data]> files)
          | RaisedIn io_error e left_behind =>
              (inl (if io_error then Exc "OSError" else e),
               match left_behind with
               | Some s => <[locate env file_path := s]> files
               | None => files
               end)
          end
      end
  end.

Definition save_product_data {D} (env : Env D) (self : Handler)
    (product_data : D) (filename : string) (files : gmap positive string) :=
  save env self (Product product_data) filename files.

Definition save_all_products_to_single_file {D} (env : Env D) (self : Handler)
    (products_list : list D) (filename : string) (files : gmap positive string) :=
  save env self (Products products_list) filename files.

(** [c in s] *)
Fixpoint has_char (c : ascii) (s : string) : bool :=
  match s with
  | EmptyString => false
  | String d s' => Ascii.eqb d c || has_char c s'
  end.

End OutputHandler.

(** * The orchestrator: [src/main.py]

    [parse_product_data] and [save_data] are imported by name and defined in
    no file of the repository; they are taken as they are called.  The
    records handed to [logging] are kept in a list; where [logging] sends
    them ([setup_logging]) is left out. *)

Module Main.

(** A decoded JSON value.  A number keeps its literal and whether it is
    other than zero. *)
#[local] Unset Elimination Schemes.
Inductive Json :=
| JNull
| JBool (b : bool)
| JNumber (nonzero : bool) (literal : string)
| JString (s : string)
| JArray (items : list Json)
| JObject (members : gmap string Json).
#[local] Set Elimination Schemes.

Definition CONFIG_FILE : string := "config.json".

(** Truth value of a value in a condition. *)
Definition truthy (v : Json) : bool :=
  match v with
  | JNull => false
  | JBool b => b
  | JNumber nonzero _ => nonzero
  | JString s => PyStr.truthy s
  | JArray items => match items with [] => false | _ => true end
  | JObject members => negb (bool_decide (members = ∅))
  end.

(** The first [except] clause of [load_config] an exception is an instance
    of. *)
Inductive ErrorKind :=
| IsFileNotFoundError
| IsJSONDecodeError
| IsValueError
| IsOtherException.

Record Raised := { kind : ErrorKind; exc : Exception }.

Definition value_error : Raised := {| kind := IsValueError; exc := Exc "ValueError" |}.
Definition type_error : Raised := {| kind := IsOtherException; exc := Exc "TypeError" |}.

Inductive Level := INFO | WARNING | ERROR | CRITICAL.

(** The messages of the file, with the values they are formatted from. *)
Inductive Message :=
| ConfigNotFound (config_path : string)
| ConfigNotJson (config_path : string)
| ConfigInvalid (config_path : string) (e : Exception)
| ConfigUnexpected (e : Exception)
| Starting
| FailedToLoad
| NoWebsites
| Skipping (name : Json)
| Processing (name url parser_type : Json)
| Extracted (name : Json)
| SentToOutput (name : Json)
| NoData (name url : Json)
| Unexpected (name url : Json) (e : Exception)
| Completed.

(** [with open(config_path) as f: config = json.load(f)] *)
Inductive Loaded :=
| LoadReturns (config : Json)
| LoadRaises (r : Raised).

(** [parse_product_data(url, parser_type)], annotated
    [Optional[Dict[str, Any]]]. *)
Inductive Parsed :=
| ParseReturns (extracted_data : option (gmap string Json))
| ParseRaises (e : Exception).

(** The surroundings; the two imported functions may answer differently
    from one call to the next, so they are asked by the position of the
    website in the list. *)
Record Env := {
  read_json : string → Loaded;
  parse_product_data : nat → Json → Json → Parsed;
  save_data : nat → gmap string Json → option Exception
}.

Fixpoint has_prefix (p s : string) : bool :=
  match p, s with
  | EmptyString, _ => true
  | String a p', String b s' => Ascii.eqb a b && has_prefix p' s'
  | String _ _, EmptyString => false
  end.

(** [p in s] on strings. *)
Fixpoint contains (p s : string) : bool :=
  has_prefix p s ||
  match s with
  | EmptyString => false
  | String _ s' => contains p s'
  end.

Definition is_string (x : string) (v : Json) : bool :=
  match v with
  | JString s => String.eqb s x
  | _ => false
  end.

(** ["websites" in config] *)
Definition websites_in (config : Json) : Raised + bool :=
  match config with
  | JObject members => inr (bool_decide (is_Some (members !! "websites")))
  | JArray items => inr (existsb (is_string "websites") items)
  | JString s => inr (contains "websites" s)
  | JNull | JBool _ | JNumber _ _ => inl type_error
  end.

(** [config["websites"]] *)
Definition websites_item (config : Json) : Raised + Json :=
  match config with
  | JObject members =>
      match members !! "websites" with
      | Some v => inr v
      | None => inl {| kind := IsOtherException; exc := Exc "KeyError" |}
      end
  | _ => inl type_error
  end.

Definition is_list (v : Json) : bool :=
  match v with
  | JArray _ => true
  | _ => false
  end.

(** Lines 60-61: the exception the check raises, if any. *)
Definition check_websites (config : Json) : option Raised :=
  match websites_in config with
  | inl r => Some r
  | inr false => Some value_error
  | inr true =>
      match websites_item config with
      | inl r => Some r
      | inr v => if is_list v then None else Some value_error
      end
  end.

(** The record an [except] clause of [load_config] writes. *)
Definition critical (config_path : string) (r : Raised) : Level * Message :=
  (CRITICAL,
   match kind r with
   | IsFileNotFoundError => ConfigNotFound config_path
   | IsJSONDecodeError => ConfigNotJson config_path
   | IsValueError => ConfigInvalid config_path (exc r)
   | IsOtherException => ConfigUnexpected (exc r)
   end).

(** [load_config]: every clause logs and raises again what it caught. *)
Definition load_config (env : Env) (config_path : string)
  : (Raised + Json) * list (Level * Message) :=
  match read_json env config_path with
  | LoadRaises r => (inl r, [critical config_path r])
  | LoadReturns config =>
      match check_websites config with
      | Some r => (inl r, [critical config_path r])
      | None => (inr config, [])
      end
  end.

Inductive Outcome :=
| Returns
| Exits (status : Z)
| Raises (e : Exception).

Record Run := {
  log : list (Level * Message);
  parse_calls : list (Json * Json);
  save_calls : list (gmap string Json)
}.

Definition logged (run : Run) (records : list (Level * Message)) : Run :=
  {| log := log run ++ records; parse_calls := parse_calls run;
     save_calls := save_calls run |}.

(** [d.get(key, default)] on the members of a dictionary. *)
Definition get (members : gmap string Json) (key : string) (default_value : Json) : Json :=
  default default_value (members !! key).

(** One turn of the loop of lines 99-124 for the website at position [i]:
    the exception that leaves the loop, if any, and the run so far. *)
Definition visit (env : Env) (i : nat) (website_info : Json) (run : Run)
  : option Exception * Run :=
  match website_info with
  | JObject members =>
      let name := get members "name" (JString "Unknown Product") in
      let url := get members "url" JNull in
      let parser_type := get members "parser_type" (JString "default") in
      if negb (truthy url) then (None, logged run [(ERROR, Skipping name)])
      else
        let run := logged run [(INFO, Processing name url parser_type)] in
        let run := {| log := log run;
                      parse_calls := parse_calls run ++ [(url, parser_type)];
                      save_calls := save_calls run |} in
        match parse_product_data env i url parser_type with
        | ParseRaises e => (None, logged run [(ERROR, Unexpected name url e)])
        | ParseReturns None => (None, logged run [(WARNING, NoData name url)])
        | ParseReturns (Some extracted_data) =>
            if bool_decide (extracted_data = ∅)
            then (None, logged run [(WARNING, NoData name url)])
            else
              let run := logged run [(INFO, Extracted name)] in
              let extracted_data := <["source_config" := website_info]> extracted_data in
              let run := {| log := log run; parse_calls := parse_calls run;
                            save_calls := save_calls run ++ [extracted_data] |} in
              match save_data env i extracted_data with
              | None => (None, logged run [(INFO, SentToOutput name)])
              | Some e => (None, logged run [(ERROR, Unexpected name url e)])
              end
        end
  | _ => (Some (Exc "AttributeError"), run)
  end.

Fixpoint visit_all (env : Env) (i : nat) (websites : list Json) (run : Run)
  : option Exception * Run :=
  match websites with
  | [] => (None, run)
  | website_info :: websites' =>
      match visit env i website_info run with
      | (Some e, run') => (Some e, run')
      | (None, run') => visit_all env (S i) websites' run'
      end
  end.

(** [main] *)
Definition main (env : Env) : Outcome * Run :=
  let run := {| log := [(INFO, Starting)]; parse_calls := []; save_calls := [] |} in
  match load_config env CONFIG_FILE with
  | (inl r, records) =>
      let run := logged run records in
      match kind r with
      | IsOtherException => (Raises (exc r), run)
      | _ => (Exits 1, logged run [(CRITICAL, FailedToLoad)])
      end
  | (inr config, records) =>
      let run := logged run records in
      match config with
      | JObject members =>
          let websites_to_parse := get members "websites" (JArray []) in
          if negb (truthy websites_to_parse)
          then (Returns, logged run [(WARNING, NoWebsites)])
          else
            match websites_to_parse with
            | JArray websites =>
                match visit_all env 0 websites run with
                | (Some e, run) => (Raises e, run)
                | (None, run) => (Returns, logged run [(INFO, Completed)])
                end
            | JString _ | JObject _ =>
                (* the first item of a string or a dictionary is a string *)
                (Raises (Exc "AttributeError"), run)
            | JNull | JBool _ | JNumber _ _ => (Raises (Exc "TypeError"), run)
            end
      | _ => (Raises (Exc "AttributeError"), run)
      end
  end.

(** The call the loop makes for a website, if it makes one. *)
Definition call_for (website_info : Json) : option (Json * Json) :=
  match website_info with
  | JObject members =>
      if truthy (get members "url" JNull)
      then Some (get members "url" JNull, get members "parser_type" (JString "default"))
      else None
  | _ => None
  end.

Definition is_object (v : Json) : bool :=
  match v with
  | JObject _ => true
  | _ => false
  end.

(** The dictionary the loop hands to [save_data] for the website at
    position [i], if it hands one. *)
Definition saved_for (env : Env) (i : nat) (website_info : Json)
  : option (gmap string Json) :=
  match call_for website_info with
  | Some (url, parser_type) =>
      match parse_product_data env i url parser_type with
      | ParseReturns (Some extracted_data) =>
          if bool_decide (extracted_data = ∅) then None
          else Some (<["source_config" := website_info]> extracted_data)
      | _ => None
      end
  | None => None
  end.

End Main.

(** A configuration to run [main] on: the second website has no URL, the
    first one cannot be fetched, the third is parsed and saved. *)
Module MainDemo.

Definition site (name url : string) : Main.Json :=
  Main.JObject {[ "name" := Main.JString name; "url" := Main.JString url ]}.

Definition websites : list Main.Json :=
  [site "A" "http://a"; Main.JObject {[ "name" := Main.JString "B" ]};
   site "C" "http://c"].

Definition members : gmap string Main.Json :=
  {[ "websites" := Main.JArray websites ]}.

Definition extracted : gmap string Main.Json :=
  {[ "price" := Main.JString "9.99"; "source_config" := Main.JString "parser" ]}.

Definition env : Main.Env := {|
  Main.read_json _ := Main.LoadReturns (Main.JObject members);
  Main.parse_product_data i _ _ :=
    match i with
    | 0 => Main.ParseRaises (Exc "ConnectionError")
    | _ => Main.ParseReturns (Some extracted)
    end;
  Main.save_data _ _ := None
|}.

(** The same file with a website that is not an object in second place. *)
Definition broken_env : Main.Env := {|
  Main.read_json _ :=
    Main.LoadReturns
      (Main.JObject
         {[ "websites" :=
              Main.JArray [site "A" "http://a"; Main.JString "http://b";
                           site "C" "http://c"] ]});
  Main.parse_product_data := Main.parse_product_data env;
  Main.save_data := Main.save_data env
|}.

(** A file that holds the number 42. *)
Definition number_env : Main.Env := {|
  Main.read_json _ := Main.LoadReturns (Main.JNumber true "42");
  Main.parse_product_data := Main.parse_product_data env;
  Main.save_data := Main.save_data env
|}.

End MainDemo.

(** * Properties *)

(** ** Text *)

Lemma truthy_true (s : string) : PyStr.truthy s = true ↔ s ≠ "".
Proof. destruct s; simpl; split; congruence. Qed.

Lemma truthy_false (s : string) : PyStr.truthy s = false ↔ s = "".
Proof. destruct s; simpl; split; congruence. Qed.

Lemma lower_char_idem (c : ascii) :
  PyStr.lower_char (PyStr.lower_char c) = PyStr.lower_char c.
Proof. destruct c as [[] [] [] [] [] [] [] []]; reflexivity. Qed.

Lemma lower_idem (s : string) : PyStr.lower (PyStr.lower s) = PyStr.lower s.
Proof.
  induction s as [|c s IH]; simpl; [reflexivity|].
  by rewrite lower_char_idem, IH.
Qed.

(** ** The inner loop *)

Lemma normalize_acc (acc : list string) (el : Match) :
  normalize acc el = acc ++ normalize [] el.
Proof.
  destruct el as [s|e|]; simpl.
  - reflexivity.
  - destruct (PyStr.truthy _); [reflexivity | by rewrite app_nil_r].
  - by rewrite app_nil_r.
Qed.

Lemma foldl_normalize (els : list Match) (acc : list string) :
  foldl normalize acc els = acc ++ process els.
Proof.
  unfold process. revert acc.
  induction els as [|el els IH] using rev_ind; intros acc; simpl.
  - by rewrite app_nil_r.
  - rewrite !foldl_app; simpl.
    rewrite (normalize_acc (foldl _ acc _)), (normalize_acc (foldl _ [] _)).
    by rewrite IH, app_assoc.
Qed.

Lemma process_cons (el : Match) (els : list Match) :
  process (el :: els) = normalize [] el ++ process els.
Proof. unfold process at 1; simpl. apply foldl_normalize. Qed.

Lemma process_app (els1 els2 : list Match) :
  process (els1 ++ els2) = process els1 ++ process els2.
Proof.
  induction els1 as [|el els1 IH]; simpl; [reflexivity|].
  by rewrite !process_cons, IH, app_assoc.
Qed.

Lemma normalize_contribution (el : Match) :
  normalize [] el = option_list (contribution el).
Proof.
  destruct el as [s|e|]; simpl; try reflexivity.
  case_decide as H.
  - by rewrite H.
  - apply truthy_true in H. by rewrite H.
Qed.

(** ** The outer loop *)

Lemma select_css (tree : DocumentTree) (sel : string) :
  select tree "css" sel =
  match cssselect tree sel with
  | Returns a => Extracted (CallCss sel) a
  | Raises e => Caught (CallCss sel) e
  end.
Proof. reflexivity. Qed.

Lemma select_xpath (tree : DocumentTree) (sel : string) :
  select tree "xpath" sel =
  match xpath tree sel with
  | Returns a => Extracted (CallXPath sel) a
  | Raises e => Caught (CallXPath sel) e
  end.
Proof. reflexivity. Qed.

Lemma select_unsupported (tree : DocumentTree) (ty sel : string) :
  ty ≠ "css" → ty ≠ "xpath" → select tree ty sel = Unsupported.
Proof.
  intros Hc Hx. unfold select.
  apply String.eqb_neq in Hc, Hx. by rewrite Hc, Hx.
Qed.

Lemma eval_field_missing (tree : DocumentTree) (sc : SelectorConfig) :
  selector_missing sc → eval_field tree sc = ([], inr (empty_form (multi_of sc))).
Proof. unfold eval_field. by intros [-> | ->]. Qed.

Lemma eval_field_unsupported (tree : DocumentTree) (sc : SelectorConfig) :
  selector_type_of sc ≠ "css" → selector_type_of sc ≠ "xpath" →
  eval_field tree sc = ([], inr (empty_form (multi_of sc))).
Proof.
  intros Hc Hx. unfold eval_field.
  destruct (cfg_selector sc) as [sel|]; [|reflexivity].
  destruct (negb (PyStr.truthy sel)); [reflexivity|].
  by rewrite select_unsupported.
Qed.

Lemma eval_field_raises (tree : DocumentTree) (sc : SelectorConfig) (e : Exception) :
  evaluation_raises tree sc e →
  (eval_field tree sc).2 = inr (empty_form (multi_of sc)).
Proof.
  intros (sel & Hsel & Hne & H). unfold eval_field. rewrite Hsel.
  apply truthy_true in Hne. rewrite Hne; simpl.
  destruct H as [[Ht Hq] | [Ht Hq]]; rewrite Ht;
    [rewrite select_css | rewrite select_xpath]; by rewrite Hq.
Qed.

Lemma eval_field_answers (tree : DocumentTree) (sc : SelectorConfig) (a : Answer) :
  evaluation_answers tree sc a →
  (eval_field tree sc).2 =
  match iterate a with
  | inl e => inl e
  | inr items => inr (resolve (multi_of sc) (process items))
  end.
Proof.
  intros (sel & Hsel & Hne & H). unfold eval_field. rewrite Hsel.
  apply truthy_true in Hne. rewrite Hne; simpl.
  destruct H as [[Ht Hq] | [Ht Hq]]; rewrite Ht;
    [rewrite select_css | rewrite select_xpath]; rewrite Hq;
    by destruct (iterate a).
Qed.

Lemma eval_field_returns (tree : DocumentTree) (sc : SelectorConfig)
    (els : list Match) :
  evaluation_returns tree sc els →
  (eval_field tree sc).2 = inr (resolve (multi_of sc) (process els)).
Proof. intros (a & Ha & Hit). by rewrite (eval_field_answers _ _ _ Ha), Hit. Qed.

Lemma eval_field_scalar (tree : DocumentTree) (sc : SelectorConfig) :
  answers_scalar tree sc → (eval_field tree sc).2 = inl (Exc "TypeError").
Proof. intros (a & Ha & Hit). by rewrite (eval_field_answers _ _ _ Ha), Hit. Qed.

(** One turn, by cases: it makes no call and stores the empty form; or it
    makes the call of its rule, and then the query raises and the empty form
    is stored, or answers and the answer is walked. *)
Lemma eval_field_cases (tree : DocumentTree) (sc : SelectorConfig) :
  (query_of sc = None ∧ eval_field tree sc = ([], inr (empty_form (multi_of sc)))) ∨
  (∃ call, query_of sc = Some call ∧
     ((∃ e, evaluation_raises tree sc e ∧
            eval_field tree sc = ([call], inr (empty_form (multi_of sc)))) ∨
      (∃ a, evaluation_answers tree sc a ∧
            eval_field tree sc =
            ([call], match iterate a with
                     | inl e => inl e
                     | inr items => inr (resolve (multi_of sc) (process items))
                     end)))).
Proof.
  unfold query_of, eval_field, evaluation_raises, evaluation_answers.
  destruct (cfg_selector sc) as [sel|] eqn:Hsel; [|by left].
  destruct (PyStr.truthy sel) eqn:Ht; simpl; [|by left].
  apply truthy_true in Ht. unfold select.
  destruct (String.eqb (selector_type_of sc) "css") eqn:Hc; simpl.
  { apply String.eqb_eq in Hc. right. exists (CallCss sel). split; [done|].
    destruct (cssselect tree sel) as [e|a] eqn:Hq; [left | right]; eexists;
      (split; [exists sel; by eauto|]); [done|]. by destruct (iterate a). }
  destruct (String.eqb (selector_type_of sc) "xpath") eqn:Hx; simpl; [|by left].
  apply String.eqb_eq in Hx. right. exists (CallXPath sel). split; [done|].
  destruct (xpath tree sel) as [e|a] eqn:Hq; [left | right]; eexists;
    (split; [exists sel; by eauto|]); [done|]. by destruct (iterate a).
Qed.

Lemma iterate_raises (a : Answer) (e : Exception) :
  iterate a = inl e → e = Exc "TypeError".
Proof. destruct a; simpl; congruence. Qed.

Lemma eval_field_calls (tree : DocumentTree) (sc : SelectorConfig) :
  (eval_field tree sc).1 = option_list (query_of sc).
Proof.
  destruct (eval_field_cases tree sc) as [[-> ->] | (call & -> & H)]; [done|].
  by destruct H as [(e & _ & ->) | (a & _ & ->)].
Qed.

Lemma eval_field_raise_inv (tree : DocumentTree) (sc : SelectorConfig)
    (e : Exception) :
  (eval_field tree sc).2 = inl e → e = Exc "TypeError" ∧ answers_scalar tree sc.
Proof.
  destruct (eval_field_cases tree sc) as [[_ ->] | (call & _ & H)]; [done|].
  destruct H as [(e' & _ & ->) | (a & Ha & ->)]; [done|]. simpl.
  destruct (iterate a) as [e'|items] eqn:Hit; [|done]. intros [= <-].
  pose proof (iterate_raises _ _ Hit) as ->. split; [done|]. by exists a.
Qed.

Lemma stored_Some (tree : DocumentTree) (sc : SelectorConfig) (v : Value) :
  stored tree sc = Some v ↔ (eval_field tree sc).2 = inr v.
Proof. unfold stored. destruct (eval_field tree sc).2; naive_solver. Qed.

Lemma stored_None (tree : DocumentTree) (sc : SelectorConfig) :
  stored tree sc = None ↔ answers_scalar tree sc.
Proof.
  unfold stored. split.
  - destruct (eval_field tree sc).2 as [e|v] eqn:E; [|done].
    intros _. by apply eval_field_raise_inv in E as [_ ?].
  - intros H. by rewrite (eval_field_scalar _ _ H).
Qed.

(** The loop, turn by turn. *)
Lemma extract_spec (tree : DocumentTree) (rules : gmap string SelectorConfig) :
  (∀ k v, results (extract tree rules) !! k = Some v →
     ∃ sc, rules !! k = Some sc ∧ stored tree sc = Some v) ∧
  (raised (extract tree rules) = None →
     ∀ k sc, rules !! k = Some sc →
       ∃ v, stored tree sc = Some v ∧ results (extract tree rules) !! k = Some v) ∧
  (∀ e, raised (extract tree rules) = Some e →
     e = Exc "TypeError" ∧ ∃ k sc, rules !! k = Some sc ∧ stored tree sc = None) ∧
  (∀ c, c ∈ calls (extract tree rules) →
     ∃ k sc, rules !! k = Some sc ∧ c ∈ (eval_field tree sc).1).
Proof.
  unfold extract.
  apply (map_fold_weak_ind (λ st m,
    (∀ k v, results st !! k = Some v →
       ∃ sc, m !! k = Some sc ∧ stored tree sc = Some v) ∧
    (raised st = None →
       ∀ k sc, m !! k = Some sc →
         ∃ v, stored tree sc = Some v ∧ results st !! k = Some v) ∧
    (∀ e, raised st = Some e →
       e = Exc "TypeError" ∧ ∃ k sc, m !! k = Some sc ∧ stored tree sc = None) ∧
    (∀ c, c ∈ calls st →
       ∃ k sc, m !! k = Some sc ∧ c ∈ (eval_field tree sc).1))).
  { simpl. split; [|split; [|split]].
    - intros k v H. by rewrite lookup_empty in H.
    - intros _ k sc H. by rewrite lookup_empty in H.
    - done.
    - by intros c ?%elem_of_nil. }
  intros i x m st Hi (IH1 & IH2 & IH3 & IH4).
  assert (∀ k sc, m !! k = Some sc → <[i:=x]> m !! k = Some sc) as Hkeep.
  { intros k sc Hk. rewrite lookup_insert_ne; [done | congruence]. }
  unfold loop_body. destruct (raised st) as [e0|] eqn:Hr.
  { split; [|split; [|split]].
    - intros k v (sc & ? & ?)%IH1. exists sc. eauto.
    - intros ?. congruence.
    - intros e He. rewrite Hr in He.
      destruct (IH3 e He) as (-> & k & sc & ? & ?). eauto 6.
    - intros c (k & sc & ? & ?)%IH4. eauto. }
  pose proof (eval_field_raise_inv tree x) as Hinv. unfold stored in *.
  destruct (eval_field tree x) as [cs [e|v]] eqn:E; simpl in *.
  - split; [|split; [|split]].
    + intros k v (sc & ? & ?)%IH1. exists sc. eauto.
    + done.
    + intros e' [= <-]. destruct (Hinv e eq_refl) as [-> _]. split; [done|].
      exists i, x. by rewrite lookup_insert_eq, E.
    + intros c [(k & sc & ? & ?)%IH4 | Hc]%elem_of_app; [eauto|].
      exists i, x. by rewrite lookup_insert_eq, E.
  - split; [|split; [|split]].
    + intros k v'. destruct (decide (i = k)) as [<- | Hne].
      * rewrite lookup_insert_eq. intros [= <-]. exists x.
        by rewrite lookup_insert_eq, E.
      * rewrite lookup_insert_ne by done.
        intros (sc & ? & ?)%IH1. exists sc. eauto.
    + intros _ k sc. destruct (decide (i = k)) as [<- | Hne].
      * rewrite !lookup_insert_eq. intros [= <-]. exists v. by rewrite E.
      * rewrite !lookup_insert_ne by done. by apply IH2.
    + done.
    + intros c [(k & sc & ? & ?)%IH4 | Hc]%elem_of_app; [eauto|].
      exists i, x. by rewrite lookup_insert_eq, E.
Qed.

Lemma extract_lookup (tree : DocumentTree) (rules : gmap string SelectorConfig)
    (k : string) (v : Value) :
  results (extract tree rules) !! k = Some v →
  ∃ sc, rules !! k = Some sc ∧ (eval_field tree sc).2 = inr v.
Proof.
  intros (sc & ? & ?%stored_Some)%(proj1 (extract_spec tree rules)). eauto.
Qed.

Lemma extract_calls (tree : DocumentTree) (rules : gmap string SelectorConfig)
    (c : QueryCall) :
  c ∈ calls (extract tree rules) →
  ∃ k sc, rules !! k = Some sc ∧ c ∈ (eval_field tree sc).1.
Proof. apply extract_spec. Qed.

(** Whether the loop runs to its end is a matter of the rules one by one. *)
Lemma extract_completes (tree : DocumentTree) (rules : gmap string SelectorConfig) :
  raised (extract tree rules) = None ↔
  map_Forall (λ _ sc, is_Some (stored tree sc)) rules.
Proof.
  destruct (extract_spec tree rules) as (_ & H2 & H3 & _). split.
  - intros Hr k sc Hk. destruct (H2 Hr k sc Hk) as (v & -> & _). by eexists.
  - intros Hall. destruct (raised (extract tree rules)) as [e|] eqn:Hr; [|done].
    destruct (H3 e eq_refl) as (_ & k & sc & Hk & Hs).
    specialize (Hall k sc Hk). simpl in Hall. rewrite Hs in Hall. by destruct Hall.
Qed.

Lemma extract_raised (tree : DocumentTree) (rules : gmap string SelectorConfig)
    (e : Exception) :
  raised (extract tree rules) = Some e →
  e = Exc "TypeError" ∧ ∃ k sc, rules !! k = Some sc ∧ answers_scalar tree sc.
Proof.
  intros (-> & k & sc & Hk & Hs%stored_None)%(extract_spec tree rules). eauto.
Qed.

Lemma extract_results (tree : DocumentTree) (rules : gmap string SelectorConfig) :
  raised (extract tree rules) = None →
  results (extract tree rules) = omap (stored tree) rules.
Proof.
  intros Hr. destruct (extract_spec tree rules) as (H1 & H2 & _).
  apply map_eq. intros k. rewrite lookup_omap.
  destruct (rules !! k) as [sc|] eqn:Hk; simpl.
  - destruct (H2 Hr k sc Hk) as (v & -> & ->). done.
  - destruct (results (extract tree rules) !! k) as [v|] eqn:Hv; [|done].
    destruct (H1 k v Hv) as (sc & ? & _). congruence.
Qed.

(** What the loop hands back, in one equation. *)
Lemma finish_extract (tree : DocumentTree) (rules : gmap string SelectorConfig) :
  finish (extract tree rules) =
  if decide (map_Forall (λ _ sc, is_Some (stored tree sc)) rules)
  then inr (omap (stored tree) rules)
  else inl (Exc "TypeError").
Proof.
  unfold finish. case_decide as Hall.
  - apply extract_completes in Hall as Hr. rewrite Hr. by rewrite extract_results.
  - destruct (raised (extract tree rules)) as [e|] eqn:Hr.
    + by apply extract_raised in Hr as [-> _].
    + by apply extract_completes in Hr.
Qed.

(** A turn that calls nothing leaves the calls of the run to the others. *)
Lemma calls_of_other_fields (tree : DocumentTree)
    (rules : gmap string SelectorConfig) (data_key : string)
    (sc : SelectorConfig) (c : QueryCall) :
  rules !! data_key = Some sc →
  (eval_field tree sc).1 = [] →
  c ∈ calls (extract tree rules) →
  ∃ k sc', k ≠ data_key ∧ rules !! k = Some sc' ∧ c ∈ (eval_field tree sc').1.
Proof.
  intros Hk Hnil (k & sc' & Hk' & Hc)%extract_calls.
  exists k, sc'. split; [|done].
  intros ->. rewrite Hk in Hk'. injection Hk' as <-.
  rewrite Hnil in Hc. by apply elem_of_nil in Hc.
Qed.

Lemma parse_product_page_raises (fromstring : string → Exception + DocumentTree)
    (html_content : string) (config : Config) (e : Exception) :
  fromstring html_content = inl e →
  parse_product_page fromstring html_content config = inl e.
Proof. intros H. unfold parse_product_page. by rewrite H. Qed.

Lemma parse_product_page_parsed (fromstring : string → Exception + DocumentTree)
    (html_content : string) (config : Config) (tree : DocumentTree) :
  fromstring html_content = inr tree →
  parse_product_page fromstring html_content config =
  finish (extract tree (default ∅ (data_points config))).
Proof. intros H. unfold parse_product_page. by rewrite H. Qed.

(** ** The objects of a call *)

Lemma alloc_fresh (o : Store.Object) (h : gmap positive Store.Object) :
  h !! (Store.alloc o h).1 = None ∧
  (Store.alloc o h).2 = <[(Store.alloc o h).1 := o]> h ∧
  h ⊆ (Store.alloc o h).2.
Proof.
  assert (h !! fresh (dom h) = None) as Hf.
  { apply not_elem_of_dom, is_fresh. }
  unfold Store.alloc; simpl. split; [done|]. split; [done|].
  by apply insert_subseteq.
Qed.

Lemma represents_weaken (h h' : gmap positive Store.Object)
    (slot : Store.Slot) (v : Value) :
  h ⊆ h' → Store.represents h slot v → Store.represents h' slot v.
Proof.
  intros Hsub. destruct slot, v; simpl; try done.
  intros H. by eapply lookup_weaken.
Qed.

Lemma represents_functional (h : gmap positive Store.Object)
    (slot : Store.Slot) (v v' : Value) :
  Store.represents h slot v → Store.represents h slot v' → v = v'.
Proof. destruct slot, v, v'; simpl; try done; congruence. Qed.

Lemma represents_dom (h : gmap positive Store.Object) (l : positive) (v : Value) :
  Store.represents h (Store.SRef l) v → ∃ xs, h !! l = Some (Store.OList xs).
Proof. destruct v; simpl; try done. eauto. Qed.

(** The dictionary at an address reads as one mapping at most. *)
Lemma holds_functional (old : gset positive) (h : gmap positive Store.Object)
    (r : positive) (m m' : gmap string Value) :
  Store.holds old h r m → Store.holds old h r m' → m = m'.
Proof.
  intros (items & Hr & Hrep & _) (items' & Hr' & Hrep' & _).
  rewrite Hr in Hr'. injection Hr' as <-.
  apply map_eq. intros k. specialize (Hrep k). specialize (Hrep' k).
  destruct Hrep as [slot v Hv|]; inversion Hrep' as [slot' v' Hv'|]; [|done].
  f_equal. by eapply represents_functional.
Qed.

Lemma holds_weaken (old : gset positive) (h h' : gmap positive Store.Object)
    (r : positive) (m : gmap string Value) :
  h ⊆ h' → Store.holds old h r m → Store.holds old h' r m.
Proof.
  intros Hsub (items & Hr & Hrep & Hshare).
  exists items. split; [by eapply lookup_weaken|]. split; [|done].
  intros k. specialize (Hrep k).
  destruct Hrep; constructor. by eapply represents_weaken.
Qed.

Lemma holds_read (old : gset positive) (h : gmap positive Store.Object)
    (r : positive) (m : gmap string Value) :
  Store.holds old h r m → Store.read h r = Some m.
Proof.
  intros (items & Hr & Hrep & _). unfold Store.read. rewrite Hr. f_equal.
  apply map_eq. intros k. rewrite lookup_omap. specialize (Hrep k).
  destruct Hrep as [slot v Hv|]; [|done]. simpl.
  destruct slot as [|s|l], v as [|s'|xs]; simpl in *; try done.
  - by subst.
  - by rewrite Hv.
Qed.

(** The inner loop appends to the one list it was given. *)
Lemma foldl_normalize_store (processed_data : positive)
    (els : list Match) (acc : list string) (h : gmap positive Store.Object) :
  foldl (Store.normalize processed_data)
    (<[processed_data := Store.OList acc]> h) els =
  <[processed_data := Store.OList (foldl normalize acc els)]> h.
Proof.
  revert acc. induction els as [|el els IH]; intros acc; [done|]. simpl.
  destruct el as [s|e|]; simpl.
  - unfold Store.append. by rewrite alter_insert_eq, IH.
  - destruct (PyStr.truthy _); [|apply IH].
    unfold Store.append. by rewrite alter_insert_eq, IH.
  - apply IH.
Qed.

Lemma empty_form_store (multi : bool) (h : gmap positive Store.Object) :
  h ⊆ (Store.empty_form multi h).2 ∧
  Store.represents (Store.empty_form multi h).2 (Store.empty_form multi h).1
    (empty_form multi) ∧
  (∀ l, (Store.empty_form multi h).1 = Store.SRef l → h !! l = None).
Proof.
  destruct (alloc_fresh (Store.OList []) h) as (Hf & _ & Hsub).
  destruct multi; simpl; [|done].
  split; [done|]. split; [by rewrite lookup_insert_eq|].
  by intros l [= <-].
Qed.

(** One turn on the store: the objects that were there stay as they were,
    and the turn ends as the turn on values does, a list being a new one. *)
Lemma eval_field_store (tree : DocumentTree) (sc : SelectorConfig)
    (h : gmap positive Store.Object) :
  h ⊆ (Store.eval_field tree sc h).2 ∧
  match (Store.eval_field tree sc h).1, (eval_field tree sc).2 with
  | inl e, inl e' => e = e'
  | inr slot, inr v =>
      Store.represents (Store.eval_field tree sc h).2 slot v ∧
      (∀ l, slot = Store.SRef l → h !! l = None)
  | _, _ => False
  end.
Proof.
  assert (∀ h0 : gmap positive Store.Object, h ⊆ h0 →
    h ⊆ (let '(slot, h1) := Store.empty_form (multi_of sc) h0 in
         (inr slot : Exception + Store.Slot, h1)).2 ∧
    match (let '(slot, h1) := Store.empty_form (multi_of sc) h0 in
           (inr slot : Exception + Store.Slot, h1)).1 with
    | inl _ => False
    | inr slot =>
        Store.represents
          (let '(slot, h1) := Store.empty_form (multi_of sc) h0 in
           (inr slot : Exception + Store.Slot, h1)).2 slot
          (empty_form (multi_of sc)) ∧
        (∀ l, slot = Store.SRef l → h !! l = None)
    end) as Hempty.
  { intros h0 Hsub.
    destruct (empty_form_store (multi_of sc) h0) as (H1 & H2 & H3).
    destruct (Store.empty_form (multi_of sc) h0) as [slot h1]; simpl in *.
    split; [by etrans|]. split; [done|].
    intros l Hl. specialize (H3 l Hl).
    destruct (h !! l) as [o|] eqn:E; [|done].
    by rewrite (lookup_weaken _ _ _ _ E Hsub) in H3. }
  unfold Store.eval_field, eval_field.
  destruct (cfg_selector sc) as [selector|]; [|by apply Hempty].
  destruct (negb (PyStr.truthy selector)); [by apply Hempty|].
  destruct (alloc_fresh (Store.OList []) h) as (_ & _ & Hsub0).
  destruct (Store.alloc (Store.OList []) h) as [l0 h0]; simpl in Hsub0.
  destruct (select tree (selector_type_of sc) selector) as [call a| |call e];
    [|by apply Hempty..].
  destruct (alloc_fresh (Store.OList []) h0) as (Hf & Heq & Hsub1).
  destruct (Store.alloc (Store.OList []) h0) as [pd h1]; simpl in *.
  destruct (iterate a) as [e|items]; simpl.
  { split; [by etrans|done]. }
  subst h1. rewrite foldl_normalize_store. fold (process items).
  split; [etrans; [exact Hsub0|by apply insert_subseteq]|]. split.
  - unfold Store.resolve, resolve. rewrite lookup_insert_eq.
    destruct (multi_of sc); simpl; [by rewrite lookup_insert_eq|].
    by destruct (process items).
  - unfold Store.resolve. destruct (multi_of sc).
    + intros l [= <-]. destruct (h !! pd) as [o|] eqn:E; [|done].
      by rewrite (lookup_weaken _ _ _ _ E Hsub0) in Hf.
    + rewrite lookup_insert_eq. by destruct (process items).
Qed.

Lemma loop_body_store (tree : DocumentTree) (h0 : gmap positive Store.Object)
    (r : positive) (data_key : string) (sc : SelectorConfig)
    (ss : Store.LoopState) (ps : LoopState) :
  h0 !! r = None →
  loop_invariant h0 r ss ps →
  loop_invariant h0 r (Store.loop_body tree r data_key sc ss)
    (loop_body tree data_key sc ps).
Proof.
  intros Hr0 (Hraised & Hsub & items & Hr & Hrep & Hshare).
  unfold Store.loop_body, loop_body. rewrite Hraised.
  destruct (raised ps) as [e0|] eqn:Hps.
  { split; [by rewrite Hraised|]. split; [done|]. by exists items. }
  destruct (eval_field_store tree sc (Store.store ss)) as [Hext Hout].
  destruct (Store.eval_field tree sc (Store.store ss)) as [out h'].
  destruct (eval_field tree sc) as [cs res]. simpl in *.
  destruct out as [e|slot], res as [e'|v]; try done; simpl.
  { subst e'. split; [done|]. split; [by etrans|].
    apply (holds_weaken _ _ _ _ _ Hext). by exists items. }
  destruct Hout as [Hslot Hnew].
  pose proof (lookup_weaken _ _ _ _ Hr Hext) as Hr'.
  assert (Store.setitem r data_key slot h' =
          <[r := Store.ODict (<[data_key := slot]> items)]> h') as ->.
  { unfold Store.setitem. apply map_eq. intros l.
    destruct (decide (r = l)) as [<- | Hne].
    - by rewrite lookup_alter_eq, lookup_insert_eq, Hr'.
    - by rewrite lookup_alter_ne, lookup_insert_ne. }
  assert (∀ s v0, Store.represents h' s v0 →
    Store.represents (<[r := Store.ODict (<[data_key := slot]> items)]> h') s v0)
    as Hkeep.
  { intros s v0. destruct s as [|s|l], v0; simpl; try done.
    intros Hl. rewrite lookup_insert_ne; [done|]. intros <-. congruence. }
  assert (∀ k l, items !! k = Some (Store.SRef l) →
    is_Some (Store.store ss !! l)) as Hlive.
  { intros k l Hk. specialize (Hrep k). rewrite Hk in Hrep.
    inversion Hrep as [? v0 Hv0|]; subst.
    apply represents_dom in Hv0 as [xs ->]. by eexists. }
  unfold loop_invariant; simpl. split; [done|]. split.
  { apply insert_subseteq_r; [done|]. by etrans. }
  exists (<[data_key := slot]> items). split; [by rewrite lookup_insert_eq|].
  split.
  - intros k. destruct (decide (data_key = k)) as [<- | Hne].
    + rewrite !lookup_insert_eq. constructor. by apply Hkeep.
    + rewrite !lookup_insert_ne by done. specialize (Hrep k).
      destruct Hrep; constructor. by eapply Hkeep, represents_weaken.
  - intros k l. destruct (decide (data_key = k)) as [<- | Hne].
    + rewrite lookup_insert_eq. intros [= ->].
      specialize (Hnew l eq_refl). split.
      * intros Hin. apply elem_of_dom in Hin as [o Ho].
        by rewrite (lookup_weaken _ _ _ _ Ho Hsub) in Hnew.
      * intros k'. destruct (decide (data_key = k')) as [<- | Hne']; [done|].
        rewrite lookup_insert_ne by done.
        intros [o Ho]%Hlive. congruence.
    + rewrite lookup_insert_ne by done. intros Hk.
      destruct (Hshare k l Hk) as [Hold Huniq]. split; [done|].
      intros k'. destruct (decide (data_key = k')) as [<- | Hne'].
      * rewrite lookup_insert_eq. intros [= ->].
        specialize (Hnew l eq_refl). apply Hlive in Hk as [o Ho]. congruence.
      * rewrite lookup_insert_ne by done. apply Huniq.
Qed.

Lemma loop_store (tree : DocumentTree) (h0 : gmap positive Store.Object)
    (r : positive) (ss : Store.LoopState) (ps : LoopState)
    (rules : list (string * SelectorConfig)) :
  h0 !! r = None →
  loop_invariant h0 r ss ps →
  loop_invariant h0 r
    (foldr (uncurry (Store.loop_body tree r)) ss rules)
    (foldr (uncurry (loop_body tree)) ps rules).
Proof.
  intros Hr0 Hinv. induction rules as [|[k sc] rules IH]; [done|].
  simpl. by apply loop_body_store.
Qed.

(** The call on the store against the function of its inputs. *)
Lemma parse_product_page_store (fromstring : string → Exception + DocumentTree)
    (html_content : string) (config : Config) (h : gmap positive Store.Object) :
  h ⊆ (Store.parse_product_page fromstring html_content config h).2 ∧
  match (Store.parse_product_page fromstring html_content config h).1,
        parse_product_page fromstring html_content config with
  | inl e, inl e' => e = e'
  | inr r, inr m =>
      h !! r = None ∧
      Store.holds (dom h)
        (Store.parse_product_page fromstring html_content config h).2 r m
  | _, _ => False
  end.
Proof.
  unfold Store.parse_product_page, parse_product_page.
  destruct (fromstring html_content) as [e|tree]; [done|].
  unfold Store.alloc; simpl.
  set (r := fresh (dom h)). set (h1 := <[r := Store.ODict ∅]> h).
  set (h2 := <[fresh (dom h1) := Store.ODict ∅]> h1).
  assert (h !! r = None) as Hf by apply not_elem_of_dom, is_fresh.
  assert (h ⊆ h1) as Hsub by by apply insert_subseteq.
  assert (h1 ⊆ h2) as Hsub2 by apply insert_subseteq, not_elem_of_dom, is_fresh.
  unfold extract, finish. rewrite !map_fold_foldr.
  pose proof (loop_store tree h r
    {| Store.store := h2; Store.raised := None |}
    {| calls := []; results := ∅; raised := None |}
    (map_to_list (default ∅ (data_points config))) Hf) as Hloop.
  destruct Hloop as (Hraised & Hframe & Hholds).
  { split; [done|]. split; [by etrans|].
    exists ∅. split; [|split].
    - eapply lookup_weaken; [|exact Hsub2]. apply lookup_insert_eq.
    - intros k. rewrite !lookup_empty. constructor.
    - intros k l Hk. by rewrite lookup_empty in Hk. }
  rewrite <- Hraised.
  by destruct (Store.raised _) as [e|]; simpl.
Qed.

(** ** The page, run *)

Example strip_attribute : PyStr.strip "  /a.png " = "/a.png".
Proof. reflexivity. Qed.

Example strip_blank : PyStr.strip (String (ascii_of_N 9) " ") = "".
Proof. reflexivity. Qed.

Example lower_mixed : PyStr.lower "XPath" = "xpath".
Proof. reflexivity. Qed.

Example three_spans :
  process [Demo.el "A"; Demo.el ""; Demo.el " B "] = ["A"; "B"].
Proof. reflexivity. Qed.

Example empty_attribute_kept : process [MStr "  "; MStr "x"] = [""; "x"].
Proof. reflexivity. Qed.

Example type_defaults_to_css :
  eval_field Demo.page
    {| cfg_selector := Some "h1"; cfg_type := None; cfg_multi := None |} =
  ([CallCss "h1"], inr (VStr "Widget")).
Proof. reflexivity. Qed.

Example string_answer_walked :
  eval_field Demo.page (Demo.rule "string(//h1)" "xpath" true) =
  ([CallXPath "string(//h1)"],
   inr (VList [""; "W"; "i"; "d"; "g"; "e"; "t"; ""])).
Proof. reflexivity. Qed.

Example number_answer_not_walked :
  eval_field Demo.page (Demo.rule "count(//h1)" "xpath" false) =
  ([CallXPath "count(//h1)"], inl (Exc "TypeError")).
Proof. reflexivity. Qed.

Example page_run :
  finish (extract Demo.page Demo.rules) =
  inr (list_to_map
         [("title", VStr "Widget"); ("tags", VList ["A"; "B"]);
          ("image", VStr "/a.png"); ("broken", VList []); ("blank", VList []);
          ("odd", VNone)]).
Proof. reflexivity. Qed.

Example blank_text_raises :
  parse_product_page Demo.fromstring "  " {| data_points := Some Demo.rules |} =
  inl (Exc "ParserError").
Proof. reflexivity. Qed.

(** A second call, made in the store the first one left after the caller
    has appended to the list under ["tags"]: it hands back another
    dictionary, which reads as the first one did, and the caller's list is
    as the caller left it. *)
Example second_call_after_change :
  let config := {| data_points := Some Demo.rules |} in
  let first := Store.parse_product_page Demo.fromstring Demo.html config ∅ in
  ∃ r items tags,
    first.1 = inr r ∧
    first.2 !! r = Some (Store.ODict items) ∧
    items !! "tags" = Some (Store.SRef tags) ∧
    first.2 !! tags = Some (Store.OList ["A"; "B"]) ∧
    let changed := Store.append tags "C" first.2 in
    let second :=
      Store.parse_product_page Demo.fromstring Demo.html config changed in
    ∃ r', second.1 = inr r' ∧ r' ≠ r ∧
      Store.read second.2 r' = Store.read first.2 r ∧
      second.2 !! tags = Some (Store.OList ["A"; "B"; "C"]).
Proof.
  do 3 eexists. split; [by vm_compute|]. split; [by vm_compute|].
  split; [by vm_compute|]. split; [by vm_compute|].
  eexists. split; [by vm_compute|]. split; [by vm_compute|].
  split; by vm_compute.
Qed.

(** ** The claims *)

Lemma finish_insert (tree : DocumentTree) (rules : gmap string SelectorConfig)
    (data_key : string) (sc : SelectorConfig) :
  finish (extract tree (<[data_key := sc]> rules)) =
  match (eval_field tree sc).2, finish (extract tree (delete data_key rules)) with
  | inr v, inr others => inr (<[data_key := v]> others)
  | inr _, inl e => inl e
  | inl e, _ => inl e
  end.
Proof.
  rewrite <- (insert_delete_eq rules data_key sc) at 1. rewrite !finish_extract.
  pose proof (map_Forall_insert (λ _ sc, is_Some (stored tree sc))
                (delete data_key rules) data_key sc (lookup_delete_eq _ _)) as Hins.
  destruct (eval_field tree sc).2 as [e|v] eqn:E.
  - destruct (eval_field_raise_inv _ _ _ E) as [-> _].
    assert (stored tree sc = None) as Hs by (unfold stored; by rewrite E).
    rewrite decide_False; [done|]. intros [[? Hv] _]%Hins. congruence.
  - assert (stored tree sc = Some v) as Hs by (unfold stored; by rewrite E).
    destruct (decide (map_Forall (λ _ sc, is_Some (stored tree sc))
                        (delete data_key rules))) as [Hd|Hd].
    + rewrite decide_True by (apply Hins; split; [by eexists | done]).
      f_equal. by apply omap_insert_Some.
    + rewrite decide_False; [done|]. by intros [_ ?]%Hins.
Qed.

(** C1. Per-field fault isolation: when the query of one data point raises,
    the exception is caught in the turn of that data point, which stores its
    empty form ([[]] if multi, else [None]), and the loop goes on: what the
    loop hands back is what it hands back for the rule set without the
    faulty rule, with the faulty key added to the mapping.  So every other
    data point is extracted exactly as if the faulty one were absent, and on
    every text that parses to the tree the call ends as the call without
    the faulty rule does. *)
Theorem fault_isolation (tree : DocumentTree)
    (rules : gmap string SelectorConfig) (data_key : string)
    (sc : SelectorConfig) (e : Exception) :
  evaluation_raises tree sc e →
  (eval_field tree sc).2 = inr (if multi_of sc then VList [] else VNone) ∧
  finish (extract tree (<[data_key := sc]> rules)) =
    match finish (extract tree (delete data_key rules)) with
    | inr others =>
        inr (<[data_key := if multi_of sc then VList [] else VNone]> others)
    | inl e' => inl e'
    end ∧
  ∀ fromstring html_content,
    fromstring html_content = inr tree →
    parse_product_page fromstring html_content
      {| data_points := Some (<[data_key := sc]> rules) |} =
    match parse_product_page fromstring html_content
            {| data_points := Some (delete data_key rules) |} with
    | inr others =>
        inr (<[data_key := if multi_of sc then VList [] else VNone]> others)
    | inl e' => inl e'
    end.
Proof.
  intros Hraise. pose proof (eval_field_raises _ _ _ Hraise) as E.
  assert (finish (extract tree (<[data_key := sc]> rules)) =
          match finish (extract tree (delete data_key rules)) with
          | inr others =>
              inr (<[data_key := if multi_of sc then VList [] else VNone]> others)
          | inl e' => inl e'
          end) as Heq.
  { rewrite finish_insert, E. by destruct (finish _). }
  split; [exact E|]. split; [exact Heq|].
  intros fromstring html_content Hparse.
  by rewrite !(parse_product_page_parsed _ _ _ tree Hparse).
Qed.

Lemma fault_isolation_witness :
  (eval_field Demo.page (Demo.rule "span[" "css" true)).2 = inr (VList []) ∧
  finish (extract Demo.page (<["broken" := Demo.rule "span[" "css" true]> Demo.rules)) =
    match finish (extract Demo.page (delete "broken" Demo.rules)) with
    | inr others => inr (<["broken" := VList []]> others)
    | inl e' => inl e'
    end ∧
  ∀ fromstring html_content,
    fromstring html_content = inr Demo.page →
    parse_product_page fromstring html_content
      {| data_points := Some (<["broken" := Demo.rule "span[" "css" true]> Demo.rules) |} =
    match parse_product_page fromstring html_content
            {| data_points := Some (delete "broken" Demo.rules) |} with
    | inr others => inr (<["broken" := VList []]> others)
    | inl e' => inl e'
    end.
Proof.
  apply (fault_isolation Demo.page Demo.rules "broken"
           (Demo.rule "span[" "css" true) (Exc "SelectorSyntaxError")).
  exists "span[". split; [reflexivity|]. split; [discriminate|].
  left. split; reflexivity.
Defined.

(** C2. On the empty text the parser raises before any rule is looked at,
    and [parse_product_page] raises with it, whatever the configuration:
    no result mapping comes back. *)
Theorem empty_document_raises (config : Config) :
  parse_product_page Demo.fromstring "" config = inl (Exc "ParserError").
Proof. reflexivity. Qed.

(** When the call hands back a mapping, its keys are those of the rule
    set; it hands one back unless the parser raises or the query of some
    rule answers a number or a truth value. *)
Lemma returned_keys (fromstring : string → Exception + DocumentTree)
    (html_content : string) (config : Config) :
  match parse_product_page fromstring html_content config with
  | inr r => dom r = dom (default ∅ (data_points config))
  | inl e =>
      fromstring html_content = inl e ∨
      ∃ tree k sc,
        fromstring html_content = inr tree ∧ e = Exc "TypeError" ∧
        default ∅ (data_points config) !! k = Some sc ∧ answers_scalar tree sc
  end.
Proof.
  unfold parse_product_page.
  destruct (fromstring html_content) as [e|tree]; [by left|].
  unfold finish.
  destruct (raised (extract tree (default ∅ (data_points config)))) as [e|] eqn:Hr.
  - right. apply extract_raised in Hr as (-> & k & sc & ? & ?). by exists tree, k, sc.
  - rewrite (extract_results _ _ Hr). apply set_eq. intros k.
    rewrite !elem_of_dom, lookup_omap.
    apply extract_completes in Hr.
    destruct (default ∅ (data_points config) !! k) as [sc|] eqn:Hk; simpl.
    + split; [by eauto|]. intros _. by apply (Hr k sc).
    + split; by intros [? ?].
Qed.

(** C3. The key set is not always there to compare: with one rule whose
    XPath expression is a number, [count(//h1)], the query answers a
    [float], line 59 raises [TypeError] outside the [try], and the call on
    the page hands back no mapping at all, although every other rule of the
    set could be evaluated. *)
Theorem number_answer_raises :
  parse_product_page Demo.fromstring Demo.html
    {| data_points := Some Demo.counting_rules |} = inl (Exc "TypeError") ∧
  parse_product_page Demo.fromstring Demo.html
    {| data_points := Some {[ "count" := Demo.rule "count(//h1)" "xpath" false ]} |} =
    inl (Exc "TypeError").
Proof. split; reflexivity. Qed.

(** The mapping the loop ends with holds under a key what the turn of its
    rule stores; the loop ends without a mapping only for the answer of
    another rule. *)
Lemma stored_in_results (tree : DocumentTree)
    (rules : gmap string SelectorConfig) (data_key : string)
    (sc : SelectorConfig) (v : Value) :
  rules !! data_key = Some sc →
  (eval_field tree sc).2 = inr v →
  match raised (extract tree rules) with
  | None => results (extract tree rules) !! data_key = Some v
  | Some e =>
      e = Exc "TypeError" ∧
      ∃ k sc', k ≠ data_key ∧ rules !! k = Some sc' ∧ answers_scalar tree sc'
  end.
Proof.
  intros Hk E. destruct (raised (extract tree rules)) as [e|] eqn:Hr.
  - apply extract_raised in Hr as (-> & k & sc' & Hk' & Hs). split; [done|].
    exists k, sc'. split; [|done]. intros ->.
    rewrite Hk in Hk'. injection Hk' as <-.
    apply eval_field_scalar in Hs. congruence.
  - destruct (extract_spec tree rules) as (_ & H2 & _).
    destruct (H2 Hr _ _ Hk) as (v' & Hv%stored_Some & ->). congruence.
Qed.

(** C4. Cardinality resolution: when the query of a data point answers a
    match sequence whose normalized form is [s], the turn of the data point
    stores the whole of [s] if multi, and otherwise the first element of
    [s], or [None] when [s] is empty; the mapping the loop ends with holds
    that value under the key.  The loop does not end with a mapping only
    when the query of another rule answers a number or a truth value. *)
Theorem cardinality_resolution (tree : DocumentTree)
    (rules : gmap string SelectorConfig) (data_key : string)
    (sc : SelectorConfig) (els : list Match) :
  rules !! data_key = Some sc →
  evaluation_returns tree sc els →
  (eval_field tree sc).2 =
    inr (if multi_of sc then VList (process els)
         else from_option VStr VNone (head (process els))) ∧
  match raised (extract tree rules) with
  | None =>
      results (extract tree rules) !! data_key =
      Some (if multi_of sc then VList (process els)
            else from_option VStr VNone (head (process els)))
  | Some e =>
      e = Exc "TypeError" ∧
      ∃ k sc', k ≠ data_key ∧ rules !! k = Some sc' ∧ answers_scalar tree sc'
  end.
Proof.
  intros Hk Hret.
  assert ((eval_field tree sc).2 =
          inr (if multi_of sc then VList (process els)
               else from_option VStr VNone (head (process els)))) as E.
  { rewrite (eval_field_returns _ _ _ Hret). unfold resolve.
    by destruct (multi_of sc), (process els). }
  split; [exact E|]. by apply (stored_in_results _ _ _ sc).
Qed.

Lemma cardinality_resolution_witness :
  (eval_field Demo.page (Demo.rule "span.p" "CSS" true)).2 =
    inr (VList (process [Demo.el "A"; Demo.el ""; Demo.el " B "])) ∧
  results (extract Demo.page Demo.rules) !! "tags" =
    Some (VList (process [Demo.el "A"; Demo.el ""; Demo.el " B "])).
Proof.
  apply (cardinality_resolution Demo.page Demo.rules "tags"
           (Demo.rule "span.p" "CSS" true)).
  - reflexivity.
  - exists (Items [Demo.el "A"; Demo.el ""; Demo.el " B "]). split; [|reflexivity].
    exists "span.p". split; [reflexivity|]. split; [discriminate|].
    left. split; reflexivity.
Defined.

(** C5. Normalization asymmetry: inside any match sequence, a string match
    adds exactly its trimmed value, the empty string included; an element
    match adds its trimmed text content when that is not empty and nothing
    when it is. *)
Theorem normalization_asymmetry (pre post : list Match) :
  (∀ s, process (pre ++ MStr s :: post) =
        process pre ++ PyStr.strip s :: process post) ∧
  (∀ e, process (pre ++ MElement e :: post) =
        process pre ++
        (if decide (PyStr.strip (text_content e) = "") then []
         else [PyStr.strip (text_content e)]) ++
        process post).
Proof.
  split; intros x; rewrite process_app, process_cons, normalize_contribution;
    simpl; [reflexivity|].
  by case_decide.
Qed.

(** C6. Empty-selector short-circuit: a data point whose selector is missing
    or empty has [[]] stored if multi and [None] otherwise on every tree,
    and the mapping the loop ends with holds that value; its turn of the
    loop calls neither query method, so every call of the run belongs to
    another data point.  The loop does not end with a mapping only when the
    query of another rule answers a number or a truth value. *)
Theorem empty_selector_short_circuit (tree : DocumentTree)
    (rules : gmap string SelectorConfig) (data_key : string)
    (sc : SelectorConfig) :
  rules !! data_key = Some sc →
  selector_missing sc →
  eval_field tree sc = ([], inr (if multi_of sc then VList [] else VNone)) ∧
  match raised (extract tree rules) with
  | None =>
      results (extract tree rules) !! data_key =
      Some (if multi_of sc then VList [] else VNone)
  | Some e =>
      e = Exc "TypeError" ∧
      ∃ k sc', k ≠ data_key ∧ rules !! k = Some sc' ∧ answers_scalar tree sc'
  end ∧
  (eval_field tree sc).1 = [] ∧
  ∀ c, c ∈ calls (extract tree rules) →
    ∃ k sc', k ≠ data_key ∧ rules !! k = Some sc' ∧ c ∈ (eval_field tree sc').1.
Proof.
  intros Hk Hmiss. pose proof (eval_field_missing tree _ Hmiss) as E.
  split; [exact E|]. split.
  { apply (stored_in_results _ _ _ sc); [done | by rewrite E]. }
  rewrite E. split; [done|].
  intros c. apply (calls_of_other_fields _ _ _ sc); [done | by rewrite E].
Qed.

Lemma empty_selector_short_circuit_witness :
  eval_field Demo.page (Demo.rule "" "css" true) = ([], inr (VList [])) ∧
  results (extract Demo.page Demo.rules) !! "blank" = Some (VList []) ∧
  (eval_field Demo.page (Demo.rule "" "css" true)).1 = [] ∧
  ∀ c, c ∈ calls (extract Demo.page Demo.rules) →
    ∃ k sc', k ≠ "blank" ∧ Demo.rules !! k = Some sc' ∧
             c ∈ (eval_field Demo.page sc').1.
Proof.
  apply (empty_selector_short_circuit Demo.page Demo.rules "blank"
           (Demo.rule "" "css" true)).
  - reflexivity.
  - right. reflexivity.
Defined.

(** C7. Unsupported language: a data point whose lowered type is neither
    [css] nor [xpath] has [[]] stored if multi and [None] otherwise, and the
    mapping the loop ends with holds that value; its turn calls neither
    query method, and it does exactly what a rule with a missing or empty
    selector and the same multi flag does, on any tree.  The loop does not
    end with a mapping only when the query of another rule answers a number
    or a truth value. *)
Theorem unsupported_language (tree : DocumentTree)
    (rules : gmap string SelectorConfig) (data_key : string)
    (sc : SelectorConfig) :
  rules !! data_key = Some sc →
  selector_type_of sc ≠ "css" →
  selector_type_of sc ≠ "xpath" →
  eval_field tree sc = ([], inr (if multi_of sc then VList [] else VNone)) ∧
  match raised (extract tree rules) with
  | None =>
      results (extract tree rules) !! data_key =
      Some (if multi_of sc then VList [] else VNone)
  | Some e =>
      e = Exc "TypeError" ∧
      ∃ k sc', k ≠ data_key ∧ rules !! k = Some sc' ∧ answers_scalar tree sc'
  end ∧
  (eval_field tree sc).1 = [] ∧
  (∀ c, c ∈ calls (extract tree rules) →
     ∃ k sc', k ≠ data_key ∧ rules !! k = Some sc' ∧ c ∈ (eval_field tree sc').1) ∧
  ∀ tree' sc', selector_missing sc' → multi_of sc' = multi_of sc →
    eval_field tree sc = eval_field tree' sc'.
Proof.
  intros Hk Hc Hx. pose proof (eval_field_unsupported tree _ Hc Hx) as E.
  split; [exact E|]. split.
  { apply (stored_in_results _ _ _ sc); [done | by rewrite E]. }
  rewrite E. split; [done|]. split.
  - intros c. apply (calls_of_other_fields _ _ _ sc); [done | by rewrite E].
  - intros tree' sc' Hmiss Hmulti.
    by rewrite (eval_field_missing _ _ Hmiss), Hmulti.
Qed.

Lemma unsupported_language_witness :
  eval_field Demo.page (Demo.rule "h1" "regex" false) = ([], inr VNone) ∧
  results (extract Demo.page Demo.rules) !! "odd" = Some VNone ∧
  (eval_field Demo.page (Demo.rule "h1" "regex" false)).1 = [] ∧
  (∀ c, c ∈ calls (extract Demo.page Demo.rules) →
     ∃ k sc', k ≠ "odd" ∧ Demo.rules !! k = Some sc' ∧
              c ∈ (eval_field Demo.page sc').1) ∧
  ∀ tree' sc', selector_missing sc' → multi_of sc' = false →
    eval_field Demo.page (Demo.rule "h1" "regex" false) = eval_field tree' sc'.
Proof.
  apply (unsupported_language Demo.page Demo.rules "odd"
           (Demo.rule "h1" "regex" false)).
  - reflexivity.
  - discriminate.
  - discriminate.
Defined.

(** C8, as stated, fails: in this sequence no match is an element with
    empty text, yet the tuple of the namespace axis is dropped. *)
Lemma dropped_without_blank_text :
  let els := [MStr "a"; MOther; MStr "b"] in
  Forall (λ el, blank_element el = false) els ∧
  process els = ["a"; "b"] ∧
  List.length (process els) < List.length els.
Proof.
  simpl. split; [|split; [reflexivity | lia]].
  repeat constructor.
Qed.

(** C8, amended. Order preservation without deduplication: the normalized
    sequence is the raw match sequence with each match replaced, in place
    and in order, by the entry it contributes; sequences are normalized
    piece by piece, equal matches each keep their entry, and a match
    contributes nothing only when it is an element with empty trimmed text
    or is neither a string nor an element. *)
Theorem order_preserved (els els' : list Match) (el : Match) :
  process els = omap contribution els ∧
  process (els ++ els') = process els ++ process els' ∧
  process (el :: el :: els) = process [el] ++ process [el] ++ process els ∧
  (contribution el = None ↔ blank_element el = true ∨ el = MOther).
Proof.
  split; [|split; [|split]].
  - induction els as [|x xs IH]; [reflexivity|].
    rewrite process_cons, normalize_contribution, IH; simpl.
    by destruct (contribution x).
  - apply process_app.
  - by rewrite !(process_cons el), app_nil_r.
  - destruct el as [s|e|]; simpl.
    + split; [discriminate | intros [?|?]; discriminate].
    + case_decide as H.
      * split; [|done]. intros _. left. by rewrite H.
      * apply truthy_true in H. rewrite H; simpl.
        split; [discriminate | intros [?|?]; discriminate].
    + split; [by right | done].
Qed.

(** C9 (determinism and statelessness).  A call is made in a store [h] of
    objects, those that earlier calls built and that their callers have kept
    or changed among them.  The call leaves every object of [h] as it was;
    it ends as the function of [html_content] and [config] alone says, with
    the same exception or with a dictionary that is a new object, reads as
    the mapping of that function and refers to lists that are new and not
    shared between keys; so two calls with the same inputs, in whatever
    stores [h] and [h'] they are made, raise the same exception or hand back
    dictionaries that read as the same mapping. *)
Theorem invocation_stateless (fromstring : string → Exception + DocumentTree)
    (html_content : string) (config : Config)
    (h h' : gmap positive Store.Object) :
  let call := Store.parse_product_page fromstring html_content config in
  h ⊆ (call h).2 ∧
  match (call h).1, parse_product_page fromstring html_content config with
  | inl e, inl e' => e = e'
  | inr r, inr m =>
      h !! r = None ∧ Store.holds (dom h) (call h).2 r m ∧
      Store.read (call h).2 r = Some m
  | _, _ => False
  end ∧
  match (call h).1, (call h').1 with
  | inl e, inl e' => e = e'
  | inr r, inr r' =>
      ∃ m, Store.holds (dom h) (call h).2 r m ∧
           Store.holds (dom h') (call h').2 r' m ∧
           Store.read (call h).2 r = Store.read (call h').2 r'
  | _, _ => False
  end.
Proof.
  intros call. subst call.
  destruct (parse_product_page_store fromstring html_content config h)
    as [Hframe Hout].
  destruct (parse_product_page_store fromstring html_content config h')
    as [_ Hout'].
  split; [done|].
  destruct (Store.parse_product_page fromstring html_content config h).1
    as [e|r],
    (Store.parse_product_page fromstring html_content config h').1 as [e'|r'],
    (parse_product_page fromstring html_content config) as [e0|m];
    try done.
  - split; congruence.
  - destruct Hout as [Hnew Hholds], Hout' as [_ Hholds'].
    split; [by eauto using holds_read|].
    exists m. split; [done|]. split; [done|].
    by rewrite (holds_read _ _ _ _ Hholds), (holds_read _ _ _ _ Hholds').
Qed.

(** C10. The type is lowered before it is compared: a rule does what the
    rule with the lowered type does, so [CSS] and [Css] make the turn of
    [css] and [XPATH] the turn of [xpath], with the same call on the tree,
    and not the turn of an unsupported type. *)
Theorem type_dispatch_case_insensitive (tree : DocumentTree)
    (sc : SelectorConfig) (type : string) :
  eval_field tree (with_type sc type) =
    eval_field tree (with_type sc (PyStr.lower type)) ∧
  eval_field tree (with_type sc "CSS") = eval_field tree (with_type sc "css") ∧
  eval_field tree (with_type sc "Css") = eval_field tree (with_type sc "css") ∧
  eval_field tree (with_type sc "XPATH") = eval_field tree (with_type sc "xpath") ∧
  (∀ selector, selector ≠ "" → cfg_selector sc = Some selector →
     (eval_field tree (with_type sc "CSS")).1 = [CallCss selector] ∧
     (eval_field tree (with_type sc "XPATH")).1 = [CallXPath selector]).
Proof.
  split; [|repeat split; try reflexivity].
  - unfold eval_field, selector_type_of, multi_of; simpl.
    by rewrite lower_idem.
  - unfold eval_field; simpl. rewrite H0.
    apply truthy_true in H. rewrite H; simpl.
    change (selector_type_of (with_type sc "CSS")) with "css".
    rewrite select_css.
    destruct (cssselect tree selector) as [e|a]; [done|]. by destruct (iterate a).
  - unfold eval_field; simpl. rewrite H0.
    apply truthy_true in H. rewrite H; simpl.
    change (selector_type_of (with_type sc "XPATH")) with "xpath".
    rewrite select_xpath.
    destruct (xpath tree selector) as [e|a]; [done|]. by destruct (iterate a).
Qed.

Lemma type_dispatch_case_insensitive_witness :
  (eval_field Demo.page (Demo.rule "span.p" "CSS" true)).1 = [CallCss "span.p"] ∧
  (eval_field Demo.page (Demo.rule "span.p" "XPATH" true)).1 = [CallXPath "span.p"].
Proof.
  apply (proj2 (proj2 (proj2 (proj2
    (type_dispatch_case_insensitive Demo.page (Demo.rule "span.p" "css" true) "CSS"))))).
  - discriminate.
  - reflexivity.
Defined.

(** * Further properties of [parse_product_page] *)

(** ** [str.strip] *)

Lemma append_cons (c : ascii) (a b : string) :
  String c a +:+ b = String c (a +:+ b).
Proof. reflexivity. Qed.

Lemma append_assoc (a b c : string) : (a +:+ b) +:+ c = a +:+ (b +:+ c).
Proof.
  induction a as [|x a IH]; [reflexivity|].
  by rewrite !append_cons, IH.
Qed.

Lemma lstrip_split (s : string) :
  ∃ pre, s = pre +:+ PyStr.lstrip s ∧ all_space pre = true.
Proof.
  induction s as [|c s (pre & IH & Hpre)]; simpl.
  - by exists "".
  - destruct (PyStr.is_space c) eqn:Hc.
    + exists (String c pre). rewrite append_cons, <- IH. simpl. by rewrite Hc.
    + by exists "".
Qed.

Lemma rstrip_split (s : string) :
  ∃ post, s = PyStr.rstrip s +:+ post ∧ all_space post = true.
Proof.
  induction s as [|c s (post & IH & Hpost)]; simpl.
  - by exists "".
  - destruct (PyStr.rstrip s) as [|d r] eqn:Hr.
    + change ("" +:+ post) with post in IH. subst post.
      destruct (PyStr.is_space c) eqn:Hc.
      * exists (String c s). split; [reflexivity|]. simpl. by rewrite Hc.
      * exists s. by rewrite append_cons.
    + exists post. by rewrite append_cons, <- IH.
Qed.

Lemma lstrip_first (s : string) (c : ascii) :
  first_char (PyStr.lstrip s) = Some c → PyStr.is_space c = false.
Proof.
  induction s as [|d s IH]; simpl; [done|].
  destruct (PyStr.is_space d) eqn:Hd; [done|].
  simpl. by intros [= <-].
Qed.

Lemma rstrip_first_inv (s : string) (c : ascii) :
  first_char (PyStr.rstrip s) = Some c → first_char s = Some c.
Proof.
  destruct s as [|d s]; simpl; [done|].
  destruct (PyStr.rstrip s); [destruct (PyStr.is_space d)|]; simpl; done.
Qed.

Lemma last_char_cons (c d : ascii) (s : string) :
  last_char (String c (String d s)) = last_char (String d s).
Proof.
  change (last_char (String c (String d s)))
    with (match last_char (String d s) with None => Some c | Some y => Some y end).
  destruct (last_char (String d s)) eqn:H; [done|].
  simpl in H. by destruct (last_char s).
Qed.

Lemma rstrip_last (s : string) (c : ascii) :
  last_char (PyStr.rstrip s) = Some c → PyStr.is_space c = false.
Proof.
  revert c. induction s as [|d s IH]; intros c; simpl; [done|].
  destruct (PyStr.rstrip s) as [|x r] eqn:Hr.
  - destruct (PyStr.is_space d) eqn:Hd; simpl; [done|]. by intros [= <-].
  - rewrite last_char_cons. apply IH.
Qed.

Lemma strip_trimmed (s : string) : trimmed (PyStr.strip s) = true.
Proof.
  unfold trimmed, PyStr.strip. apply andb_true_iff. split; apply negb_true_iff.
  - destruct (first_char (PyStr.rstrip (PyStr.lstrip s))) as [c|] eqn:H; [|done].
    simpl. by apply rstrip_first_inv, lstrip_first in H.
  - destruct (last_char (PyStr.rstrip (PyStr.lstrip s))) as [c|] eqn:H; [|done].
    simpl. by apply rstrip_last in H.
Qed.

Lemma strip_split (s : string) :
  ∃ pre post, s = pre +:+ PyStr.strip s +:+ post ∧
              all_space pre = true ∧ all_space post = true.
Proof.
  destruct (lstrip_split s) as (pre & Hs & Hpre).
  destruct (rstrip_split (PyStr.lstrip s)) as (post & Hl & Hpost).
  exists pre, post. unfold PyStr.strip. by rewrite <- Hl, <- Hs.
Qed.

Lemma trimmed_strip (s : string) : trimmed s = true → PyStr.strip s = s.
Proof.
  unfold trimmed, PyStr.strip. intros [Hf Hl]%andb_true_iff.
  apply negb_true_iff in Hf, Hl.
  assert (PyStr.lstrip s = s) as ->.
  { destruct s as [|c s]; simpl in *; [done | by rewrite Hf]. }
  clear Hf. induction s as [|c s IH]; [done|].
  destruct s as [|d s].
  - simpl in *. by rewrite Hl.
  - rewrite last_char_cons in Hl.
    change (PyStr.rstrip (String c (String d s)))
      with (match PyStr.rstrip (String d s) with
            | EmptyString => if PyStr.is_space c then EmptyString else String c EmptyString
            | r => String c r
            end).
    by rewrite (IH Hl).
Qed.

Lemma strip_idem (s : string) : PyStr.strip (PyStr.strip s) = PyStr.strip s.
Proof. apply trimmed_strip, strip_trimmed. Qed.

(** ** One turn of the loop, by cases *)

Lemma process_omap (els : list Match) : process els = omap contribution els.
Proof.
  induction els as [|x xs IH]; [reflexivity|].
  rewrite process_cons, normalize_contribution, IH; simpl.
  by destruct (contribution x).
Qed.

Lemma contribution_raw (el : Match) (s : string) :
  contribution el = Some s →
  ∃ raw, raw_text el = Some raw ∧ s = PyStr.strip raw.
Proof.
  destruct el as [raw|e|]; simpl; [| |done].
  - intros [= <-]. by exists raw.
  - case_decide; [done|]. intros [= <-]. by eexists.
Qed.

Lemma resolve_strings (multi : bool) (l : list string) (s : string) :
  s ∈ strings_of (resolve multi l) → s ∈ l.
Proof.
  destruct multi; simpl; [done|].
  destruct l as [|x l]; simpl; [done|].
  intros ->%list_elem_of_singleton. by left.
Qed.

Lemma empty_form_strings (multi : bool) : strings_of (empty_form multi) = [].
Proof. by destruct multi. Qed.

Lemma resolve_is_list (multi : bool) (l : list string) :
  is_list (resolve multi l) = multi.
Proof. destruct multi; [done | by destruct l]. Qed.

Lemma empty_form_is_list (multi : bool) : is_list (empty_form multi) = multi.
Proof. by destruct multi. Qed.

Lemma eval_field_is_list (tree : DocumentTree) (sc : SelectorConfig) (v : Value) :
  (eval_field tree sc).2 = inr v → is_list v = multi_of sc.
Proof.
  destruct (eval_field_cases tree sc) as [[_ ->] | (call & _ & H)]; simpl.
  { intros [= <-]. apply empty_form_is_list. }
  destruct H as [(e & _ & ->) | (a & _ & ->)]; simpl.
  - intros [= <-]. apply empty_form_is_list.
  - destruct (iterate a); [done|]. intros [= <-]. apply resolve_is_list.
Qed.

(** ** Results *)

(** X1. The shape of a stored value is fixed by the rule alone: a list when
    [multi] is true, [None] or one string when it is false or missing,
    whatever the document holds and whether or not the query fails. *)
Theorem result_shape (tree : DocumentTree) (rules : gmap string SelectorConfig)
    (data_key : string) (v : Value) :
  results (extract tree rules) !! data_key = Some v →
  ∃ sc, rules !! data_key = Some sc ∧ is_list v = multi_of sc.
Proof.
  intros (sc & Hk & E)%extract_lookup. exists sc. split; [done|].
  by apply (eval_field_is_list tree).
Qed.

Lemma result_shape_witness :
  ∃ sc, Demo.rules !! "tags" = Some sc ∧ is_list (VList ["A"; "B"]) = multi_of sc.
Proof.
  apply (result_shape Demo.page Demo.rules "tags" (VList ["A"; "B"])).
  reflexivity.
Defined.

(** X2. Every string of a result comes from one item the loop of line 59
    walks for the rule's own query, a member of the list the query answers
    or, when an XPath expression answers one string, a single character of
    it: the result string is the text of that item (the string itself, or
    the text content of the element) with white space taken off both ends
    and nothing else changed, and it has no white space left at either
    end. *)
Theorem result_string_provenance (tree : DocumentTree)
    (rules : gmap string SelectorConfig) (data_key : string) (v : Value)
    (s : string) :
  results (extract tree rules) !! data_key = Some v →
  s ∈ strings_of v →
  trimmed s = true ∧
  ∃ sc a els el raw pre post,
    rules !! data_key = Some sc ∧ evaluation_answers tree sc a ∧
    iterate a = inr els ∧ el ∈ els ∧ raw_text el = Some raw ∧
    raw = pre +:+ s +:+ post ∧ all_space pre = true ∧ all_space post = true.
Proof.
  intros (sc & Hk & E)%extract_lookup Hs.
  destruct (eval_field_cases tree sc) as [[_ E'] | (call & _ & H)].
  { rewrite E' in E. injection E as <-. rewrite empty_form_strings in Hs.
    by apply elem_of_nil in Hs. }
  destruct H as [(e & _ & E') | (a & Ha & E')]; rewrite E' in E; simpl in E.
  { injection E as <-. rewrite empty_form_strings in Hs.
    by apply elem_of_nil in Hs. }
  destruct (iterate a) as [e|els] eqn:Hit; [done|]. injection E as <-.
  apply resolve_strings in Hs. rewrite process_omap in Hs.
  apply list_elem_of_omap in Hs as (el & Hel & Hc).
  apply contribution_raw in Hc as (raw & Hraw & ->).
  split; [apply strip_trimmed|].
  destruct (strip_split raw) as (pre & post & Hsplit & Hpre & Hpost).
  by exists sc, a, els, el, raw, pre, post.
Qed.

Lemma result_string_provenance_witness :
  trimmed "B" = true ∧
  ∃ sc a els el raw pre post,
    Demo.rules !! "tags" = Some sc ∧ evaluation_answers Demo.page sc a ∧
    iterate a = inr els ∧ el ∈ els ∧ raw_text el = Some raw ∧
    raw = pre +:+ "B" +:+ post ∧ all_space pre = true ∧ all_space post = true.
Proof.
  apply (result_string_provenance Demo.page Demo.rules "tags" (VList ["A"; "B"]) "B").
  - reflexivity.
  - simpl. apply list_elem_of_further, list_elem_of_here.
Defined.

(** X3. The single value is the head of the list: with the same selector
    and type, the rule with [multi] false makes the same call as the rule
    with [multi] true and has the first string of its list stored, or [None]
    when that list is empty; when the turn of the one raises, on an answer
    that cannot be walked, so does the turn of the other. *)
Theorem single_is_head_of_multi (tree : DocumentTree) (sc : SelectorConfig) :
  (eval_field tree (with_multi sc false)).1 = (eval_field tree (with_multi sc true)).1 ∧
  match (eval_field tree (with_multi sc true)).2 with
  | inr v =>
      ∃ l, v = VList l ∧
           (eval_field tree (with_multi sc false)).2 =
           inr (from_option VStr VNone (head l))
  | inl e => (eval_field tree (with_multi sc false)).2 = inl e
  end.
Proof.
  unfold eval_field, with_multi, multi_of, selector_type_of; simpl.
  destruct (cfg_selector sc) as [sel|]; simpl; [|by split; [|exists []]].
  destruct (negb (PyStr.truthy sel)); simpl; [by split; [|exists []]|].
  destruct (select tree _ sel) as [call a| |call e]; simpl;
    [|by split; [|exists []] ..].
  destruct (iterate a) as [e|els]; simpl; [done|].
  split; [done|]. exists (process els). by destruct (process els).
Qed.

(** X4. From the result a selector that fails cannot be told from one that
    matches nothing: a rule whose query raises and a rule of the same
    cardinality whose query answers no entry have the same value stored. *)
Theorem failure_looks_like_no_match (tree tree' : DocumentTree)
    (sc sc' : SelectorConfig) (e : Exception) (els : list Match) :
  evaluation_raises tree sc e →
  evaluation_returns tree' sc' els →
  process els = [] →
  multi_of sc = multi_of sc' →
  (eval_field tree sc).2 = (eval_field tree' sc').2.
Proof.
  intros Hraise Hret Hnil Hmulti.
  rewrite (eval_field_raises _ _ _ Hraise), (eval_field_returns _ _ _ Hret).
  rewrite Hnil, Hmulti. by destruct (multi_of sc').
Qed.

Lemma failure_looks_like_no_match_witness :
  (eval_field Demo.page (Demo.rule "span[" "css" true)).2 =
  (eval_field Demo.page (Demo.rule "table" "css" true)).2.
Proof.
  apply (failure_looks_like_no_match Demo.page Demo.page
           (Demo.rule "span[" "css" true) (Demo.rule "table" "css" true)
           (Exc "SelectorSyntaxError") []).
  - exists "span[". split; [reflexivity|]. split; [discriminate|].
    left. split; reflexivity.
  - exists (Items []). split; [|reflexivity].
    exists "table". split; [reflexivity|]. split; [discriminate|].
    left. split; reflexivity.
  - reflexivity.
  - reflexivity.
Defined.

Lemma query_of_Some (sc : SelectorConfig) (c : QueryCall) :
  query_of sc = Some c ↔
  ∃ sel, cfg_selector sc = Some sel ∧ sel ≠ "" ∧
    ((c = CallCss sel ∧ selector_type_of sc = "css") ∨
     (c = CallXPath sel ∧ selector_type_of sc = "xpath")).
Proof.
  unfold query_of. split.
  - destruct (cfg_selector sc) as [sel|]; [|done].
    destruct (PyStr.truthy sel) eqn:Ht; simpl; [|done].
    apply truthy_true in Ht.
    destruct (String.eqb (selector_type_of sc) "css") eqn:Hc.
    { apply String.eqb_eq in Hc. intros [= <-]. exists sel. eauto. }
    destruct (String.eqb (selector_type_of sc) "xpath") eqn:Hx; [|done].
    apply String.eqb_eq in Hx. intros [= <-]. exists sel. eauto.
  - intros (sel & -> & Hne%truthy_true & H). rewrite Hne; simpl.
    destruct H as [[-> ->] | [-> Hx]]; [done|]. rewrite Hx. done.
Qed.

Lemma extract_calls_multiset (tree : DocumentTree)
    (rules : gmap string SelectorConfig) :
  calls (extract tree rules) ⊆+ omap (λ kv, query_of kv.2) (map_to_list rules) ∧
  (raised (extract tree rules) = None →
   calls (extract tree rules) ≡ₚ omap (λ kv, query_of kv.2) (map_to_list rules)).
Proof.
  unfold extract.
  apply (map_fold_weak_ind (λ st m,
    calls st ⊆+ omap (λ kv : string * SelectorConfig, query_of kv.2) (map_to_list m) ∧
    (raised st = None →
     calls st ≡ₚ omap (λ kv : string * SelectorConfig, query_of kv.2) (map_to_list m)))).
  { by rewrite map_to_list_empty. }
  intros i x m st Hi [IH1 IH2].
  assert (omap (λ kv : string * SelectorConfig, query_of kv.2)
            (map_to_list (<[i:=x]> m)) ≡ₚ
          option_list (query_of x) ++
          omap (λ kv : string * SelectorConfig, query_of kv.2) (map_to_list m)) as HL.
  { rewrite (map_to_list_insert m i x Hi). simpl. by destruct (query_of x). }
  unfold loop_body. destruct (raised st) as [e0|] eqn:Hr.
  { split; [|intros ?; congruence]. rewrite HL. by apply submseteq_inserts_l. }
  specialize (IH2 eq_refl).
  pose proof (eval_field_calls tree x) as Hcs.
  assert (calls st ++ option_list (query_of x) ≡ₚ
          omap (λ kv : string * SelectorConfig, query_of kv.2)
            (map_to_list (<[i:=x]> m))) as Hperm.
  { rewrite HL, IH2. apply Permutation_app_comm. }
  destruct (eval_field tree x) as [cs [e|v]]; simpl in *; subst cs;
    (split; [by rewrite Hperm | by intros _]).
Qed.

(** X5. One query per data point, no more: when the loop runs to its end,
    the calls made on the tree are, up to their order, one call for each
    rule with a non-empty selector whose type lowers to [css] or [xpath],
    with the selector of that rule on the method of its type, and none for
    any other rule; when a turn raises, the loop stops and the calls made
    are some of those, none of them more often than there are such rules. *)
Theorem one_query_per_data_point (tree : DocumentTree)
    (rules : gmap string SelectorConfig) :
  calls (extract tree rules) ⊆+ omap (λ kv, query_of kv.2) (map_to_list rules) ∧
  (raised (extract tree rules) = None →
   calls (extract tree rules) ≡ₚ omap (λ kv, query_of kv.2) (map_to_list rules)) ∧
  ∀ sc c, query_of sc = Some c ↔
    ∃ sel, cfg_selector sc = Some sel ∧ sel ≠ "" ∧
      ((c = CallCss sel ∧ selector_type_of sc = "css") ∨
       (c = CallXPath sel ∧ selector_type_of sc = "xpath")).
Proof.
  destruct (extract_calls_multiset tree rules) as [H1 H2].
  split; [exact H1|]. split; [exact H2|]. apply query_of_Some.
Qed.

Lemma one_query_per_data_point_witness :
  calls (extract Demo.page Demo.rules) ≡ₚ
  omap (λ kv, query_of kv.2) (map_to_list Demo.rules).
Proof.
  apply (proj1 (proj2 (one_query_per_data_point Demo.page Demo.rules))).
  reflexivity.
Defined.

(** X6. How rule sets compose.  Adding or replacing a rule whose turn
    stores a value changes the value under its own key and nothing else of
    what the loop hands back without that rule; a rule whose turn raises
    makes the whole call raise.  For two rule sets with no key in common the
    loop hands back the two mappings put together, or raises when it raises
    for one of them. *)
Theorem rules_compose (tree : DocumentTree)
    (rules rules' : gmap string SelectorConfig) (data_key : string)
    (sc : SelectorConfig) :
  finish (extract tree (<[data_key := sc]> rules)) =
    match (eval_field tree sc).2, finish (extract tree (delete data_key rules)) with
    | inr v, inr others => inr (<[data_key := v]> others)
    | inr _, inl e => inl e
    | inl e, _ => inl e
    end ∧
  (rules ##ₘ rules' →
   finish (extract tree (rules ∪ rules')) =
     match finish (extract tree rules), finish (extract tree rules') with
     | inr r, inr r' => inr (r ∪ r')
     | inl e, _ => inl e
     | _, inl e => inl e
     end).
Proof.
  split; [apply finish_insert|].
  intros Hdisj. rewrite !finish_extract.
  pose proof (map_Forall_union rules rules'
                (λ _ sc, is_Some (stored tree sc)) Hdisj) as Hu.
  destruct (decide (map_Forall (λ _ sc, is_Some (stored tree sc)) rules)) as [H1|H1],
           (decide (map_Forall (λ _ sc, is_Some (stored tree sc)) rules')) as [H2|H2].
  - rewrite decide_True by (by apply Hu). by rewrite map_omap_union.
  - rewrite decide_False; [done|]. by intros [_ ?]%Hu.
  - rewrite decide_False; [done|]. by intros [? _]%Hu.
  - rewrite decide_False; [done|]. by intros [? _]%Hu.
Qed.

Lemma rules_compose_witness :
  finish (extract Demo.page
            ({[ "count" := Demo.rule "count(//h1)" "xpath" false ]} ∪ Demo.rules)) =
  match finish (extract Demo.page
                  {[ "count" := Demo.rule "count(//h1)" "xpath" false ]}),
        finish (extract Demo.page Demo.rules) with
  | inr r, inr r' => inr (r ∪ r')
  | inl e, _ => inl e
  | _, inl e => inl e
  end.
Proof.
  apply (proj2 (rules_compose Demo.page
                  {[ "count" := Demo.rule "count(//h1)" "xpath" false ]}
                  Demo.rules "count" (Demo.rule "count(//h1)" "xpath" false))).
  apply map_disjoint_singleton_l. reflexivity.
Defined.

(** * Properties of the logging set-up *)

(** ** [str.upper] against [str.lower] *)

Lemma upper_char_cases (c : ascii) :
  Logger.upper_char c = [83%N; 83%N] ∨
  ∃ x, Logger.upper_char c = [x] ∧
       ((65 <=? x)%N && (x <=? 90)%N = true →
        PyStr.lower_char c = ascii_of_N (x + 32)).
Proof.
  destruct c as [[] [] [] [] [] [] [] []];
    first [ by left
          | right; eexists; split; [reflexivity|]; vm_compute; congruence ].
Qed.

Lemma upper_of_lower_char (c : ascii) :
  let d := N_of_ascii (PyStr.lower_char c) in
  (97 <=? d)%N && (d <=? 122)%N = true →
  Logger.upper_char c = [(d - 32)%N].
Proof.
  destruct c as [[] [] [] [] [] [] [] []]; vm_compute; congruence.
Qed.

Lemma lower_char_capital (a : ascii) :
  (65 <=? N_of_ascii a)%N && (N_of_ascii a <=? 90)%N = true →
  PyStr.lower_char a = ascii_of_N (N_of_ascii a + 32) ∧
  (97 <=? N_of_ascii (PyStr.lower_char a))%N
    && (N_of_ascii (PyStr.lower_char a) <=? 122)%N = true ∧
  (N_of_ascii (PyStr.lower_char a) - 32)%N = N_of_ascii a.
Proof.
  destruct a as [[] [] [] [] [] [] [] []]; vm_compute; try congruence; done.
Qed.

Lemma upper_matches_name (name value : string) :
  Logger.capitals name = true →
  Logger.upper value = Logger.code_points name ↔
  PyStr.lower value = PyStr.lower name.
Proof.
  revert value. induction name as [|a name IH]; intros value Hcap.
  - destruct value as [|c value]; simpl; [done|].
    split; [|done]. destruct (upper_char_cases c) as [-> | (x & -> & _)]; done.
  - simpl in Hcap.
    apply andb_true_iff in Hcap as [Hcap Hname].
    apply andb_true_iff in Hcap as [Ha Hss].
    destruct (lower_char_capital a Ha) as (Hla & Hrange & Hback).
    destruct value as [|c value]; simpl; [done|]. split.
    + destruct (upper_char_cases c) as [-> | (x & -> & Hx)]; simpl.
      * intros [= Hc Hrest]. destruct name as [|b name]; simpl in *; [done|].
        exfalso. injection Hrest as Hb _.
        rewrite <- Hc, <- Hb in Hss. done.
      * intros [= -> Hrest]. f_equal.
        -- rewrite Hx by done. by rewrite Hla.
        -- by apply IH.
    + intros [= Hc Hrest].
      pose proof (upper_of_lower_char c) as Hu; simpl in Hu.
      rewrite Hc in Hu. rewrite (Hu Hrange), Hback; simpl.
      f_equal. by apply IH.
Qed.

Lemma level_map_get_ci (table : list (string * Z)) (value : string) :
  Forall (λ entry, Logger.capitals entry.1 = true) table →
  Logger.level_map_get table (Logger.upper value) = Logger.level_of_name table value.
Proof.
  induction 1 as [|[name level] table Hname _ IH]; simpl; [done|].
  rewrite IH. simpl in Hname.
  pose proof (upper_matches_name name value Hname) as Hiff.
  destruct (decide (Logger.upper value = Logger.code_points name)) as [Hu|Hu],
           (decide (PyStr.lower value = PyStr.lower name)) as [Hl|Hl];
    try done; [by apply Hiff in Hu | by apply Hiff in Hl].
Qed.

(** ** The guard *)

Lemma configure_guarded (os : Logger.OS) (level : option Z)
    (log_file : option string) (st : Logger.State) :
  Logger.logger_configured st = true →
  Logger.configure_logging os level log_file false st = st.
Proof. intros H. unfold Logger.configure_logging. by rewrite H. Qed.

Lemma configure_passes (os : Logger.OS) (level : option Z)
    (log_file : option string) (force : bool) (st : Logger.State) :
  Logger.logger_configured st = false ∨ force = true →
  let st' := Logger.configure_logging os level log_file force st in
  Logger.logger_configured st' = true ∧
  Logger.root_level st' = Logger.resolve_level os level ∧
  Logger.root_handlers st' =
    (if force then [] else Logger.root_handlers st)
    ++ Logger.StreamHandler :: Logger.file_handlers os log_file ∧
  Logger.closed_handlers st' =
    (if force then Logger.closed_handlers st ++ Logger.root_handlers st
     else Logger.closed_handlers st).
Proof.
  intros Hpass. unfold Logger.configure_logging, Logger.file_handlers.
  assert (Logger.logger_configured st && negb force = false) as ->.
  { destruct Hpass as [-> | ->]; [done | by rewrite andb_false_r]. }
  destruct (Logger.log_file_given log_file) as [f|]; simpl.
  - destruct (Logger.file_handler_error os f); simpl;
      by rewrite <- ?app_assoc.
  - done.
Qed.

Lemma step_unforced (os : Logger.OS) (call : Logger.Call) (st : Logger.State) :
  Logger.logger_configured st = true →
  Logger.forced call = false →
  Logger.step os st call = st.
Proof.
  intros Hst Hcall. destruct call as [level log_file force|name]; simpl in *.
  - subst force. by apply configure_guarded.
  - unfold Logger.get_logger. by rewrite Hst.
Qed.

Lemma run_unforced (os : Logger.OS) (calls : list Logger.Call) (st : Logger.State) :
  Logger.logger_configured st = true →
  Forall (λ call, Logger.forced call = false) calls →
  Logger.run os calls st = st.
Proof.
  intros Hst Hcalls. unfold Logger.run.
  induction Hcalls as [|call calls Hcall _ IH]; simpl; [done|].
  by rewrite step_unforced.
Qed.

Lemma import_configured (os : Logger.OS) (level : Z) (handlers : list Logger.Handler) :
  let st := Logger.import_module os level handlers in
  Logger.logger_configured st = true ∧
  Logger.root_handlers st = handlers ++ [Logger.StreamHandler].
Proof.
  split; reflexivity.
Qed.

(** X7. The module configures itself when it is imported, and after that
    only a call with [force_reconfigure] changes anything: whatever levels
    and log files later [configure_logging] calls without it ask for, and
    however often [get_logger] is called, the level, the handlers and the
    flag stay as the import left them. *)
Theorem configured_without_force_is_kept (os : Logger.OS) (level : Z)
    (handlers : list Logger.Handler) (calls : list Logger.Call) :
  Forall (λ call, Logger.forced call = false) calls →
  Logger.run os calls (Logger.import_module os level handlers) =
  Logger.import_module os level handlers.
Proof.
  intros Hcalls. apply run_unforced; [|done].
  apply import_configured.
Qed.

Lemma configured_without_force_is_kept_witness :
  Logger.run {| Logger.environ := ∅; Logger.file_handler_error := λ _, None |}
    [Logger.Configure (Some Logger.DEBUG) (Some "app.log") false;
     Logger.GetLogger "src.parser"]
    (Logger.import_module
       {| Logger.environ := ∅; Logger.file_handler_error := λ _, None |}
       Logger.WARNING []) =
  Logger.import_module
    {| Logger.environ := ∅; Logger.file_handler_error := λ _, None |}
    Logger.WARNING [].
Proof.
  apply (configured_without_force_is_kept
           {| Logger.environ := ∅; Logger.file_handler_error := λ _, None |}
           Logger.WARNING []
           [Logger.Configure (Some Logger.DEBUG) (Some "app.log") false;
            Logger.GetLogger "src.parser"]).
  repeat constructor.
Defined.

Lemma run_app (os : Logger.OS) (calls calls' : list Logger.Call) (st : Logger.State) :
  Logger.run os (calls ++ calls') st = Logger.run os calls' (Logger.run os calls st).
Proof. unfold Logger.run. apply foldl_app. Qed.

(** X8. A call with [force_reconfigure] forgets what came before: after it,
    and after any later calls without force, the root logger holds the level
    the call resolves, the console handler and the file handler of that call
    if one could be opened, and nothing else; every handler that was
    attached before the call has been removed and closed. *)
Theorem forced_reconfigure_forgets (os : Logger.OS)
    (before after : list Logger.Call) (level : option Z)
    (log_file : option string) (st : Logger.State) :
  Forall (λ call, Logger.forced call = false) after →
  let st' := Logger.run os (before ++ Logger.Configure level log_file true :: after) st in
  Logger.logger_configured st' = true ∧
  Logger.root_level st' = Logger.resolve_level os level ∧
  Logger.root_handlers st' = Logger.StreamHandler :: Logger.file_handlers os log_file ∧
  ∀ h, h ∈ Logger.root_handlers (Logger.run os before st) →
       h ∈ Logger.closed_handlers st'.
Proof.
  intros Hafter st'. subst st'.
  rewrite run_app. set (st1 := Logger.run os before st).
  change (Logger.run os (Logger.Configure level log_file true :: after) st1)
    with (Logger.run os after (Logger.configure_logging os level log_file true st1)).
  destruct (configure_passes os level log_file true st1) as (H1 & H2 & H3 & H4);
    [by right|].
  rewrite run_unforced by done.
  split; [done|]. split; [done|]. split; [done|].
  intros h Hh. rewrite H4. apply elem_of_app. by right.
Qed.

Lemma forced_reconfigure_forgets_witness :
  let os := {| Logger.environ := ∅; Logger.file_handler_error := λ _, None |} in
  let st' :=
    Logger.run os
      ([Logger.GetLogger "a"]
       ++ Logger.Configure (Some Logger.DEBUG) (Some "app.log") true
          :: [Logger.Configure None None false])
      (Logger.import_module os Logger.WARNING [Logger.FileHandler "old.log"]) in
  Logger.logger_configured st' = true ∧
  Logger.root_level st' = Logger.resolve_level os (Some Logger.DEBUG) ∧
  Logger.root_handlers st' =
    Logger.StreamHandler :: Logger.file_handlers os (Some "app.log") ∧
  ∀ h, h ∈ Logger.root_handlers
             (Logger.run os [Logger.GetLogger "a"]
                (Logger.import_module os Logger.WARNING [Logger.FileHandler "old.log"])) →
       h ∈ Logger.closed_handlers st'.
Proof.
  apply (forced_reconfigure_forgets
           {| Logger.environ := ∅; Logger.file_handler_error := λ _, None |}
           [Logger.GetLogger "a"] [Logger.Configure None None false]
           (Some Logger.DEBUG) (Some "app.log")).
  repeat constructor.
Defined.

(** X9. The level a call that passes the guard sets: the [level] argument
    when there is one; otherwise the level whose name equals the value of
    [APP_LOG_LEVEL] up to the case of its letters, and [INFO] when the
    variable is unset or names no level. *)
Theorem log_level_resolution (os : Logger.OS) (level : option Z)
    (log_file : option string) (force : bool) (st : Logger.State) :
  Logger.logger_configured st = false ∨ force = true →
  Logger.root_level (Logger.configure_logging os level log_file force st) =
  match level with
  | Some l => l
  | None =>
      match Logger.environ os !! Logger.LOG_LEVEL_ENV_VAR with
      | None => Logger.INFO
      | Some value =>
          default Logger.INFO (Logger.level_of_name Logger.level_names value)
      end
  end.
Proof.
  intros Hpass.
  destruct (configure_passes os level log_file force st Hpass) as (_ & -> & _).
  destruct level as [l|]; [done|]. unfold Logger.resolve_level.
  rewrite level_map_get_ci by repeat constructor.
  by destruct (Logger.environ os !! Logger.LOG_LEVEL_ENV_VAR) as [value|].
Qed.

Lemma log_level_resolution_witness :
  Logger.root_level
    (Logger.configure_logging
       {| Logger.environ := {[ "APP_LOG_LEVEL" := "Debug" ]};
          Logger.file_handler_error := λ _, None |}
       None None true
       (Logger.import_module
          {| Logger.environ := ∅; Logger.file_handler_error := λ _, None |}
          Logger.WARNING [])) = Logger.DEBUG.
Proof.
  exact (log_level_resolution
           {| Logger.environ := {[ "APP_LOG_LEVEL" := "Debug" ]};
              Logger.file_handler_error := λ _, None |}
           None None true _ (or_intror eq_refl)).
Defined.

(** X10. Console logging survives everything: after the import and any
    calls whatever, forced or not, with log files that open or fail, the
    module is configured and the root logger has a console handler; the
    handlers never pile up beyond two more than the process had before the
    import; and a file handler on the root logger that was not there before
    the import is one whose file could be opened. *)
Theorem console_handler_invariant (os : Logger.OS) (level : Z)
    (handlers : list Logger.Handler) (calls : list Logger.Call) :
  let st := Logger.run os calls (Logger.import_module os level handlers) in
  Logger.logger_configured st = true ∧
  Logger.StreamHandler ∈ Logger.root_handlers st ∧
  (List.length (Logger.root_handlers st) ≤ List.length handlers + 2)%nat ∧
  ∀ f, Logger.FileHandler f ∈ Logger.root_handlers st →
       Logger.FileHandler f ∈ handlers ∨ Logger.file_handler_error os f = None.
Proof.
  set (Inv := λ st : Logger.State,
    Logger.logger_configured st = true ∧
    Logger.StreamHandler ∈ Logger.root_handlers st ∧
    (List.length (Logger.root_handlers st) ≤ List.length handlers + 2)%nat ∧
    ∀ f, Logger.FileHandler f ∈ Logger.root_handlers st →
         Logger.FileHandler f ∈ handlers ∨ Logger.file_handler_error os f = None).
  assert (∀ f log_file, Logger.FileHandler f ∈ Logger.file_handlers os log_file →
            Logger.file_handler_error os f = None) as Hfile.
  { intros f log_file. unfold Logger.file_handlers.
    destruct (Logger.log_file_given log_file) as [g|]; [|by intros ?%elem_of_nil].
    destruct (Logger.file_handler_error os g) eqn:Hg; [by intros ?%elem_of_nil|].
    by intros [= ->]%list_elem_of_singleton. }
  assert (∀ log_file, (List.length (Logger.file_handlers os log_file) ≤ 1)%nat) as Hlen.
  { intros log_file. unfold Logger.file_handlers.
    destruct (Logger.log_file_given log_file) as [g|]; [|simpl; lia].
    destruct (Logger.file_handler_error os g); simpl; lia. }
  assert (∀ call st, Inv st → Inv (Logger.step os st call)) as Hstep.
  { intros call st HInv. destruct (Logger.forced call) eqn:Hforced.
    - destruct call as [lv lf force|name]; simpl in *; [subst force | done].
      destruct (configure_passes os lv lf true st) as (H1 & _ & H3 & _);
        [by right|].
      unfold Inv. rewrite H1, H3; simpl. split; [done|]. split; [by left|].
      split; [specialize (Hlen lf); lia|].
      intros f [?|Hf]%elem_of_cons; [done|]. right. by eapply Hfile.
    - rewrite step_unforced; [done | apply HInv | done]. }
  assert (Inv (Logger.import_module os level handlers)) as Hinit.
  { unfold Inv. destruct (import_configured os level handlers) as [-> ->].
    split; [done|]. split; [apply elem_of_app; right; by left|].
    split; [rewrite length_app; simpl; lia|].
    intros f [?|Hf]%elem_of_app; [by left|].
    by apply list_elem_of_singleton in Hf. }
  intros st. subst st. unfold Logger.run. revert Hinit.
  generalize (Logger.import_module os level handlers).
  induction calls as [|call calls IH]; intros st HInv; simpl; [done|].
  by apply IH, Hstep.
Qed.

(** * Properties of the output handler *)

(** ** [pathlib], run *)

Example parse_relative :
  OutputHandler.parse "out//./run/" =
  {| OutputHandler.root := ""; OutputHandler.parts := ["out"; "run"] |}.
Proof. reflexivity. Qed.

Example suffix_examples :
  OutputHandler.name_suffix "a.tar.gz" = ".gz" ∧
  OutputHandler.name_suffix ".json" = "" ∧
  OutputHandler.name_suffix "a." = "" ∧
  OutputHandler.name_suffix "..json" = ".json" ∧
  OutputHandler.name_suffix "x.json" = ".json".
Proof. repeat split. Qed.

Example target_examples :
  let out := {| OutputHandler.output_dir := OutputHandler.parse "output" |} in
  OutputHandler.target out "p1" = inr (OutputHandler.parse "output/p1.json") ∧
  OutputHandler.target out "p1.v2" = inr (OutputHandler.parse "output/p1.json") ∧
  OutputHandler.target out "a.tar.gz" = inr (OutputHandler.parse "output/a.tar.json") ∧
  OutputHandler.target out "a." = inr (OutputHandler.parse "output/a..json") ∧
  OutputHandler.target out ".json" = inr (OutputHandler.parse "output/.json.json") ∧
  OutputHandler.target out "a/b.txt" = inr (OutputHandler.parse "output/a/b.json") ∧
  OutputHandler.target out "../x" = inr (OutputHandler.parse "output/../x.json") ∧
  OutputHandler.target out "" = inr (OutputHandler.parse "output.json") ∧
  OutputHandler.target out "/etc/x" = inr (OutputHandler.parse "/etc/x.json") ∧
  OutputHandler.target out "//x/y" = inr (OutputHandler.parse "//x/y.json") ∧
  OutputHandler.target {| OutputHandler.output_dir := OutputHandler.parse "" |} "" =
    inl (Exc "ValueError").
Proof. repeat split. Qed.

(** ** Strings *)

Lemma length_append (a b : string) :
  String.length (a +:+ b) = (String.length a + String.length b)%nat.
Proof. induction a as [|c a IH]; simpl; [done | by rewrite IH]. Qed.

Lemma rfind_dot_append (a b : string) (i : nat) :
  OutputHandler.rfind_dot b = Some i →
  OutputHandler.rfind_dot (a +:+ b) = Some (String.length a + i)%nat.
Proof.
  intros Hb. induction a as [|c a IH]; [done|].
  rewrite append_cons; simpl. by rewrite IH.
Qed.

Lemma rfind_dot_none (s : string) :
  OutputHandler.has_char "." s = false → OutputHandler.rfind_dot s = None.
Proof.
  induction s as [|d s IH]; simpl; [done|].
  intros [Hd Hs]%orb_false_iff. by rewrite IH, Hd.
Qed.

Lemma rfind_dot_lt (s : string) (i : nat) :
  OutputHandler.rfind_dot s = Some i → (i < String.length s)%nat.
Proof.
  revert i. induction s as [|c s IH]; intros i; simpl; [done|].
  destruct (OutputHandler.rfind_dot s) as [j|].
  - intros [= <-]. specialize (IH j eq_refl). lia.
  - destruct (Ascii.eqb c "."); [|done]. intros [= <-]. lia.
Qed.

Lemma drop_append (a b : string) : OutputHandler.drop (String.length a) (a +:+ b) = b.
Proof. induction a as [|c a IH]; simpl; [by destruct b | done]. Qed.

Lemma take_append (a b : string) : OutputHandler.take (String.length a) (a +:+ b) = a.
Proof.
  induction a as [|c a IH]; simpl; [by destruct b|].
  by rewrite IH.
Qed.

Lemma length_drop (i : nat) (s : string) :
  String.length (OutputHandler.drop i s) = (String.length s - i)%nat.
Proof.
  revert s. induction i as [|i IH]; intros [|c s]; simpl; done.
Qed.

Lemma take_nonempty (i : nat) (s : string) :
  (0 < i)%nat → s ≠ "" → OutputHandler.take i s ≠ "".
Proof. destruct i, s; simpl; try done; lia. Qed.

Lemma append_nonempty (a b : string) : a ≠ "" → a +:+ b ≠ "".
Proof. by destruct a. Qed.

Lemma name_suffix_json (base : string) :
  base ≠ "" → OutputHandler.name_suffix (base +:+ ".json") = ".json".
Proof.
  intros Hbase. unfold OutputHandler.name_suffix.
  rewrite (rfind_dot_append base ".json" 0) by done.
  rewrite length_append, Nat.add_0_r, drop_append.
  assert (0 < String.length base)%nat by (destruct base; simpl; [done | lia]).
  assert ((0 <? String.length base)%nat = true) as -> by (apply Nat.ltb_lt; lia).
  assert ((String.length base <? String.length base + String.length ".json" - 1)%nat
          = true) as -> by (apply Nat.ltb_lt; simpl; lia).
  done.
Qed.

Lemma name_suffix_cases (nm : string) :
  OutputHandler.name_suffix nm = "" ∨
  ∃ i, (0 < i)%nat ∧ (i < String.length nm)%nat ∧
       OutputHandler.name_suffix nm = OutputHandler.drop i nm.
Proof.
  unfold OutputHandler.name_suffix.
  destruct (OutputHandler.rfind_dot nm) as [i|] eqn:Hi; [|by left].
  destruct (0 <? i)%nat eqn:H0; simpl; [|by left].
  destruct (i <? String.length nm - 1)%nat eqn:H1; [|by left].
  right. exists i. apply Nat.ltb_lt in H0. apply rfind_dot_lt in Hi. done.
Qed.

Lemma last_snoc (l : list string) (x : string) : List.last (l ++ [x]) "" = x.
Proof. apply last_last. Qed.

Lemma removelast_snoc (l : list string) (x : string) : removelast (l ++ [x]) = l.
Proof. apply removelast_last. Qed.

(** ** The file a save goes to *)

Lemma take_drop (i : nat) (s : string) :
  OutputHandler.take i s +:+ OutputHandler.drop i s = s.
Proof.
  revert s. induction i as [|i IH]; intros [|c s]; simpl; try done.
  by rewrite append_cons, IH.
Qed.

(** A name is its stem followed by its suffix, and [with_suffix] keeps the
    stem. *)
Lemma name_stem (nm : string) :
  nm ≠ "" →
  ∃ stem, stem ≠ "" ∧ nm = stem +:+ OutputHandler.name_suffix nm ∧
    (if String.eqb (OutputHandler.name_suffix nm) "" then nm
     else OutputHandler.take
            (String.length nm - String.length (OutputHandler.name_suffix nm)) nm)
    = stem.
Proof.
  intros Hnm.
  destruct (name_suffix_cases nm) as [-> | (i & H0 & Hi & ->)].
  - exists nm. split; [done|]. split; [|done].
    clear. induction nm as [|c nm IH]; [done|]. by rewrite append_cons, <- IH.
  - exists (OutputHandler.take i nm). split; [by apply take_nonempty|].
    split; [by rewrite take_drop|].
    rewrite length_drop.
    replace (String.length nm - (String.length nm - i))%nat with i by lia.
    destruct (String.eqb (OutputHandler.drop i nm) "") eqn:E; [|done].
    apply String.eqb_eq in E. apply (f_equal String.length) in E.
    rewrite length_drop in E. simpl in E. lia.
Qed.

Lemma with_suffix_json (p : OutputHandler.Path) :
  OutputHandler.name p ≠ "" →
  ∃ stem, stem ≠ "" ∧
    OutputHandler.name p = stem +:+ OutputHandler.suffix p ∧
    OutputHandler.with_suffix p ".json" =
    inr {| OutputHandler.root := OutputHandler.root p;
           OutputHandler.parts :=
             removelast (OutputHandler.parts p) ++ [stem +:+ ".json"] |}.
Proof.
  intros Hname. unfold OutputHandler.with_suffix, OutputHandler.suffix.
  apply String.eqb_neq in Hname as Heq. rewrite Heq.
  destruct (name_stem _ Hname) as (stem & Hstem & Hsplit & Hcomp).
  exists stem. split; [done|]. split; [done|].
  destruct (String.eqb (OutputHandler.name_suffix (OutputHandler.name p)) "");
    by rewrite Hcomp.
Qed.

Lemma parts_name (p : OutputHandler.Path) :
  OutputHandler.name p ≠ "" →
  OutputHandler.parts p =
  removelast (OutputHandler.parts p) ++ [OutputHandler.name p].
Proof.
  unfold OutputHandler.name. intros Hname.
  apply app_removelast_last. by intros E; rewrite E in Hname.
Qed.

(** Computing the path fails in one way only. *)
Lemma target_raises (self : OutputHandler.Handler) (filename : string)
    (e : Exception) :
  OutputHandler.target self filename = inl e → e = Exc "ValueError".
Proof.
  unfold OutputHandler.target, OutputHandler.with_suffix.
  destruct (negb _); [|done].
  destruct (String.eqb _ ""); [|done]. by intros [= <-].
Qed.

(** X11. Every file the handler writes has the suffix [.json], and which
    file it is, is fixed by the joined path [output_dir / filename]: the
    root and all components but the last are those of the joined path, and
    the last component is the stem of the joined path's name, which is that
    name without its suffix, followed by [.json]; so the path is the joined
    path itself when that already ends in [.json].  The computation fails
    exactly when the joined path has no last component, and then with
    [ValueError]. *)
Theorem target_is_json (self : OutputHandler.Handler) (filename : string) :
  let joined :=
    OutputHandler.joinpath (OutputHandler.output_dir self)
      (OutputHandler.parse filename) in
  match OutputHandler.target self filename with
  | inr p =>
      OutputHandler.suffix p = ".json" ∧
      OutputHandler.root p = OutputHandler.root joined ∧
      removelast (OutputHandler.parts p) = removelast (OutputHandler.parts joined) ∧
      (OutputHandler.suffix joined = ".json" → p = joined) ∧
      OutputHandler.name joined ≠ "" ∧
      ∃ stem, stem ≠ "" ∧
        OutputHandler.name joined = stem +:+ OutputHandler.suffix joined ∧
        OutputHandler.name p = stem +:+ ".json" ∧
        OutputHandler.parts p =
          removelast (OutputHandler.parts joined) ++ [stem +:+ ".json"]
  | inl e => e = Exc "ValueError" ∧ OutputHandler.name joined = ""
  end ∧
  (OutputHandler.name joined = "" →
   OutputHandler.target self filename = inl (Exc "ValueError")).
Proof.
  intros joined. unfold OutputHandler.target. fold joined. split.
  - destruct (String.eqb (OutputHandler.suffix joined) ".json") eqn:Hs; simpl.
    + apply String.eqb_eq in Hs.
      assert (OutputHandler.name joined ≠ "") as Hn.
      { intros E. unfold OutputHandler.suffix in Hs. by rewrite E in Hs. }
      do 4 (split; [done|]). split; [done|].
      destruct (name_stem _ Hn) as (stem & Hstem & Hsplit & _).
      fold (OutputHandler.suffix joined) in Hsplit.
      exists stem. split; [done|]. split; [done|].
      rewrite Hs in Hsplit. split; [done|].
      rewrite <- Hsplit. by apply parts_name.
    + apply String.eqb_neq in Hs.
      destruct (decide (OutputHandler.name joined = "")) as [Hn|Hn].
      * unfold OutputHandler.with_suffix. by rewrite Hn.
      * destruct (with_suffix_json joined Hn) as (stem & Hstem & Hsplit & ->).
        unfold OutputHandler.suffix at 1, OutputHandler.name at 1; simpl.
        rewrite last_snoc, removelast_snoc, name_suffix_json by done.
        do 4 (split; [done|]). split; [done|].
        exists stem. unfold OutputHandler.name at 2; simpl.
        by rewrite last_snoc.
  - intros Hn. unfold OutputHandler.suffix, OutputHandler.with_suffix.
    by rewrite Hn.
Qed.

Lemma has_char_append (c : ascii) (a b : string) :
  OutputHandler.has_char c (a +:+ b) =
  OutputHandler.has_char c a || OutputHandler.has_char c b.
Proof.
  induction a as [|d a IH]; [done|].
  rewrite append_cons; simpl. by rewrite IH, orb_assoc.
Qed.

Lemma split_slash_plain (s : string) :
  OutputHandler.has_char "/" s = false → OutputHandler.split_slash s = [s].
Proof.
  induction s as [|c s IH]; simpl; [done|].
  intros [Hc Hs]%orb_false_iff. by rewrite Hc, IH.
Qed.

Lemma parse_plain (s : string) :
  OutputHandler.has_char "/" s = false → s ≠ "" → s ≠ "." →
  OutputHandler.parse s =
  {| OutputHandler.root := ""; OutputHandler.parts := [s] |}.
Proof.
  intros Hslash He Hd. unfold OutputHandler.parse.
  rewrite split_slash_plain by done; simpl.
  unfold OutputHandler.is_component.
  apply String.eqb_neq in He, Hd. rewrite He, Hd; simpl. f_equal.
  destruct s as [|c s]; simpl in *; [done|].
  apply orb_false_iff in Hslash as [-> _]. done.
Qed.

(** X12. An extension is replaced, not kept: for a file name [stem.ext]
    without slashes, whatever the extension, the save goes to [stem.json]
    in the output directory, so names that differ only in their extension
    share one file. *)
Theorem extension_is_replaced (self : OutputHandler.Handler) (stem ext : string) :
  OutputHandler.has_char "/" stem = false →
  OutputHandler.has_char "/" ext = false →
  OutputHandler.has_char "." ext = false →
  stem ≠ "" → ext ≠ "" →
  OutputHandler.target self (stem +:+ "." +:+ ext) =
  inr {| OutputHandler.root := OutputHandler.root (OutputHandler.output_dir self);
         OutputHandler.parts :=
           OutputHandler.parts (OutputHandler.output_dir self) ++ [stem +:+ ".json"] |}.
Proof.
  intros Hs1 Hs2 Hdot Hstem Hext.
  set (nm := stem +:+ "." +:+ ext).
  assert (String.length stem ≠ 0) as Hlen by (by destruct stem).
  assert (String.length ext ≠ 0) as Hlen' by (by destruct ext).
  assert (OutputHandler.parse nm =
          {| OutputHandler.root := ""; OutputHandler.parts := [nm] |}) as Hparse.
  { apply parse_plain.
    - unfold nm. rewrite !has_char_append, Hs1, Hs2. done.
    - by apply append_nonempty.
    - intros H. apply (f_equal String.length) in H. unfold nm in H.
      rewrite !length_append in H. simpl in H. lia. }
  assert (OutputHandler.name_suffix nm = "." +:+ ext) as Hsuffix.
  { unfold OutputHandler.name_suffix, nm.
    rewrite (rfind_dot_append stem ("." +:+ ext) 0).
    2:{ rewrite append_cons; simpl. by rewrite rfind_dot_none. }
    rewrite Nat.add_0_r, drop_append, !length_append.
    assert ((0 <? String.length stem)%nat = true) as -> by (apply Nat.ltb_lt; lia).
    assert ((String.length stem <?
             String.length stem + (String.length "." + String.length ext) - 1)%nat
            = true) as -> by (apply Nat.ltb_lt; simpl; lia).
    done. }
  unfold OutputHandler.target, OutputHandler.joinpath. rewrite Hparse; simpl.
  unfold OutputHandler.suffix, OutputHandler.name; simpl.
  rewrite last_snoc, Hsuffix.
  destruct (String.eqb ("." +:+ ext) ".json") eqn:Hj; simpl.
  - apply String.eqb_eq in Hj. unfold nm. by rewrite Hj.
  - unfold OutputHandler.with_suffix, OutputHandler.name; simpl.
    rewrite last_snoc, removelast_snoc, Hsuffix.
    assert (String.eqb nm "" = false) as ->.
    { apply String.eqb_neq. by apply append_nonempty. }
    assert (String.eqb ("." +:+ ext) "" = false) as -> by done.
    do 3 f_equal. unfold nm. rewrite !length_append.
    replace (String.length stem + (String.length "." + String.length ext)
             - (String.length "." + String.length ext))%nat
      with (String.length stem) by lia.
    by rewrite take_append.
Qed.

Lemma extension_is_replaced_witness :
  OutputHandler.target {| OutputHandler.output_dir := OutputHandler.parse "output" |}
    ("report.v2" +:+ "." +:+ "txt") =
  inr {| OutputHandler.root := "";
         OutputHandler.parts := ["output"] ++ ["report.v2" +:+ ".json"] |}.
Proof.
  apply (extension_is_replaced
           {| OutputHandler.output_dir := OutputHandler.parse "output" |}
           "report.v2" "txt"); (reflexivity || discriminate).
Defined.

(** X13. An absolute file name leaves the output directory out: when
    [filename] begins with a slash, the file written is the one [filename]
    names on its own, the same for every handler. *)
Theorem absolute_filename_ignores_output_dir (self self' : OutputHandler.Handler)
    (filename : string) :
  first_char filename = Some "/"%char →
  OutputHandler.target self filename = OutputHandler.target self' filename ∧
  OutputHandler.joinpath (OutputHandler.output_dir self) (OutputHandler.parse filename) =
    OutputHandler.parse filename.
Proof.
  intros Hfirst.
  assert (∀ d, OutputHandler.joinpath d (OutputHandler.parse filename) =
               OutputHandler.parse filename) as Hjoin.
  { intros d. unfold OutputHandler.joinpath, OutputHandler.parse; simpl.
    destruct filename as [|c s]; simpl in *; [done|]. injection Hfirst as ->.
    simpl. by destruct (OutputHandler.leading_slashes s) as [|[|?]]. }
  unfold OutputHandler.target. by rewrite !Hjoin.
Qed.

Lemma absolute_filename_ignores_output_dir_witness :
  OutputHandler.target {| OutputHandler.output_dir := OutputHandler.parse "output" |}
    "/etc/cron.d/job" =
  OutputHandler.target {| OutputHandler.output_dir := OutputHandler.parse "/srv/data" |}
    "/etc/cron.d/job" ∧
  OutputHandler.joinpath (OutputHandler.parse "output")
    (OutputHandler.parse "/etc/cron.d/job") =
  OutputHandler.parse "/etc/cron.d/job".
Proof.
  apply (absolute_filename_ignores_output_dir
           {| OutputHandler.output_dir := OutputHandler.parse "output" |}
           {| OutputHandler.output_dir := OutputHandler.parse "/srv/data" |}
           "/etc/cron.d/job").
  reflexivity.
Defined.

(** ** Saving *)

(** X14. Data that cannot be serialized costs no file: when [json.dumps]
    raises [TypeError], both saving methods raise [ValueError] and the file
    system is as before, so a file saved earlier under that name keeps its
    content. *)
Theorem unserializable_data_leaves_files {D : Type} (env : OutputHandler.Env D)
    (self : OutputHandler.Handler) (data : OutputHandler.Payload D)
    (filename : string) (files : gmap positive string) (e : Exception) :
  OutputHandler.dumps env data = OutputHandler.DumpTypeError e →
  OutputHandler.save env self data filename files = (inl (Exc "ValueError"), files).
Proof.
  intros Hdump. unfold OutputHandler.save, OutputHandler._serialize_data.
  destruct (OutputHandler.target self filename) as [e'|p] eqn:Ht.
  - by apply target_raises in Ht as ->.
  - by rewrite Hdump.
Qed.

Lemma unserializable_data_leaves_files_witness :
  OutputHandler.save
    {| OutputHandler.dumps := λ _ : OutputHandler.Payload unit,
         OutputHandler.DumpTypeError (Exc "TypeError");
       OutputHandler.mkdir_error := λ _, None;
       OutputHandler.write := λ p _, OutputHandler.Returned p;
       OutputHandler.locate := λ _, 1%positive |}
    {| OutputHandler.output_dir := OutputHandler.parse "output" |}
    (OutputHandler.Product tt) "p1" {[ 1%positive := "{}" ]} =
  (inl (Exc "ValueError"), {[ 1%positive := "{}" ]}).
Proof.
  apply (unserializable_data_leaves_files _ _ _ _ _ (Exc "TypeError")).
  reflexivity.
Defined.

(** X15. A save touches one file at most, the one its path leads to, and a
    save that returns has put the whole serialized data there: reading the
    file back gives exactly what [json.dumps] produced, whatever the file
    held before. *)
Theorem save_writes_one_file {D : Type} (env : OutputHandler.Env D)
    (self : OutputHandler.Handler) (data : OutputHandler.Payload D)
    (filename : string) (files : gmap positive string) :
  let result := OutputHandler.save env self data filename files in
  match OutputHandler.target self filename with
  | inl e => result = (inl e, files)
  | inr file_path =>
      (∀ id, id ≠ OutputHandler.locate env file_path →
             result.2 !! id = files !! id) ∧
      (∀ resolved, result.1 = inr resolved →
         ∃ s, OutputHandler.dumps env data = OutputHandler.Dumped s ∧
              OutputHandler.write env file_path s = OutputHandler.Returned resolved ∧
              result.2 !! OutputHandler.locate env file_path = Some s)
  end.
Proof.
  unfold OutputHandler.save, OutputHandler._serialize_data.
  destruct (OutputHandler.target self filename) as [e|p]; [done|].
  destruct (OutputHandler.dumps env data) as [s|e|e]; simpl; [|done..].
  destruct (OutputHandler.write env p s) as [resolved|io e left_behind] eqn:Hw; simpl.
  - split.
    + intros id Hid. by rewrite lookup_insert_ne.
    + intros ? [= <-]. exists s. by rewrite lookup_insert_eq.
  - split; [|done]. intros id Hid.
    destruct left_behind; [by rewrite lookup_insert_ne | done].
Qed.

(** * Properties of the orchestrator *)

Example websites_check_examples :
  Main.check_websites (Main.JObject {[ "websites" := Main.JArray [] ]}) = None ∧
  Main.check_websites (Main.JObject {[ "websites" := Main.JString "a" ]}) =
    Some Main.value_error ∧
  Main.check_websites (Main.JObject ∅) = Some Main.value_error ∧
  Main.check_websites (Main.JArray [Main.JString "websites"]) = Some Main.type_error ∧
  Main.check_websites (Main.JArray []) = Some Main.value_error ∧
  Main.check_websites (Main.JString "my websites") = Some Main.type_error ∧
  Main.check_websites (Main.JNumber true "42") = Some Main.type_error.
Proof. repeat split. Qed.

(** ** [load_config] *)

Lemma check_websites_passes (config : Main.Json) :
  Main.check_websites config = None ↔
  ∃ members websites,
    config = Main.JObject members ∧
    members !! "websites" = Some (Main.JArray websites).
Proof.
  unfold Main.check_websites. split.
  - destruct config as [|b|nz lit|s|items|members]; simpl; try done.
    + by destruct (Main.contains _ _).
    + by destruct (existsb _ items).
    + destruct (members !! "websites") as [v|] eqn:Hv; simpl.
      * destruct v; simpl; try done. by eauto.
      * done.
  - intros (members & websites & -> & Hw). simpl. by rewrite Hw.
Qed.

Lemma check_websites_fails (config : Main.Json) (r : Main.Raised) :
  Main.check_websites config = Some r →
  r = Main.value_error ∨ (r = Main.type_error ∧ Main.is_object config = false).
Proof.
  unfold Main.check_websites.
  destruct config as [|b|nz lit|s|items|members]; simpl;
    try (intros [= <-]; by right).
  - destruct (Main.contains _ _); intros [= <-]; [by right | by left].
  - destruct (existsb _ items); intros [= <-]; [by right | by left].
  - destruct (members !! "websites") as [v|] eqn:Hv; simpl.
    + destruct (Main.is_list v); [done|]. intros [= <-]. by left.
    + intros [= <-]. by left.
Qed.

(** X16. What [load_config] hands back is always a JSON object whose
    [websites] entry is a list, read from the file without a record being
    logged; in every other case it raises after exactly one CRITICAL record:
    the exception of [open] or [json.load] unchanged, or, for a file that
    decodes, [ValueError] or [TypeError]. *)
Theorem load_config_checks_shape (env : Main.Env) (config_path : string) :
  match Main.load_config env config_path with
  | (inr config, records) =>
      records = [] ∧
      Main.read_json env config_path = Main.LoadReturns config ∧
      ∃ members websites,
        config = Main.JObject members ∧
        members !! "websites" = Some (Main.JArray websites)
  | (inl r, records) =>
      records = [Main.critical config_path r] ∧
      (Main.read_json env config_path = Main.LoadRaises r ∨
       ∃ config, Main.read_json env config_path = Main.LoadReturns config ∧
                 (r = Main.value_error ∨ r = Main.type_error))
  end.
Proof.
  unfold Main.load_config.
  destruct (Main.read_json env config_path) as [config|r]; [|by split; [|left]].
  destruct (Main.check_websites config) as [r|] eqn:Hc.
  - split; [done|]. right. exists config. split; [done|].
    destruct (check_websites_fails _ _ Hc) as [-> | [-> _]]; [by left | by right].
  - by apply check_websites_passes in Hc.
Qed.

(** ** The loop over the websites *)

Ltac visit_case :=
  eexists _, _; split; [reflexivity|]; simpl;
  split; [by rewrite ?app_nil_r, <- ?app_assoc|];
  split; [by rewrite ?app_nil_r, <- ?app_assoc|];
  split; [rewrite <- ?app_assoc; reflexivity|];
  simpl; intros Hin;
  repeat (apply elem_of_cons in Hin as [Heq|Hin]; [discriminate Heq|]);
  by apply elem_of_nil in Hin.

Lemma visit_object (env : Main.Env) (i : nat) (members : gmap string Main.Json)
    (run : Main.Run) :
  ∃ run' records,
    Main.visit env i (Main.JObject members) run = (None, run') ∧
    Main.parse_calls run' =
      Main.parse_calls run ++ option_list (Main.call_for (Main.JObject members)) ∧
    Main.save_calls run' =
      Main.save_calls run ++ option_list (Main.saved_for env i (Main.JObject members)) ∧
    Main.log run' = Main.log run ++ records ∧
    (Main.INFO, Main.Completed) ∉ records.
Proof.
  unfold Main.visit, Main.saved_for, Main.call_for.
  destruct (Main.truthy (Main.get members "url" Main.JNull)); simpl;
    [|visit_case].
  destruct (Main.parse_product_data env i _ _) as [[d|]|e]; simpl;
    [|visit_case..].
  destruct (bool_decide (d = ∅)); simpl; [visit_case|].
  destruct (Main.save_data env i _); simpl; visit_case.
Qed.

Lemma visit_all_objects (env : Main.Env) (websites : list Main.Json) (i : nat)
    (run : Main.Run) :
  forallb Main.is_object websites = true →
  ∃ run' records,
    Main.visit_all env i websites run = (None, run') ∧
    Main.parse_calls run' = Main.parse_calls run ++ omap Main.call_for websites ∧
    Main.save_calls run' =
      Main.save_calls run ++
      omap id (imap (λ j, Main.saved_for env (i + j)) websites) ∧
    Main.log run' = Main.log run ++ records ∧
    (Main.INFO, Main.Completed) ∉ records.
Proof.
  revert i run. induction websites as [|w ws IH]; intros i run Hall; simpl.
  { exists run, []. rewrite !app_nil_r. repeat split. by intros ?%elem_of_nil. }
  simpl in Hall. apply andb_true_iff in Hall as [Hw Hws].
  destruct w as [|b|nz lit|s|items|members]; try done.
  destruct (visit_object env i members run) as (run1 & recs1 & -> & Hp1 & Hs1 & Hl1 & Hc1).
  destruct (IH (S i) run1 Hws) as (run2 & recs2 & -> & Hp2 & Hs2 & Hl2 & Hc2).
  exists run2, (recs1 ++ recs2). split; [done|].
  rewrite Hp2, Hp1, Hs2, Hs1, Hl2, Hl1, Nat.add_0_r.
  repeat split.
  - rewrite <- app_assoc. f_equal.
    by destruct (Main.call_for (Main.JObject members)).
  - rewrite <- app_assoc. f_equal.
    assert (imap ((λ j, Main.saved_for env (i + j)) ∘ S) ws =
            imap (λ j, Main.saved_for env (S i + j)) ws) as ->.
    { apply imap_ext. intros j x _. simpl. f_equal. lia. }
    by destruct (Main.saved_for env i (Main.JObject members)).
  - by rewrite app_assoc.
  - intros [?|?]%elem_of_app; done.
Qed.

(** Every dictionary saved in a run of the loop is that of one of its
    websites, whether the loop runs to its end or not. *)
Lemma visit_all_saves (env : Main.Env) (websites : list Main.Json) (i : nat)
    (run : Main.Run) (data : gmap string Main.Json) :
  data ∈ Main.save_calls (Main.visit_all env i websites run).2 →
  data ∈ Main.save_calls run ∨
  ∃ j website_info,
    websites !! j = Some website_info ∧
    Main.saved_for env (i + j) website_info = Some data.
Proof.
  revert i run. induction websites as [|w ws IH]; intros i run; simpl.
  { by left. }
  destruct (Main.is_object w) eqn:Hobj.
  - destruct w as [|b|nz lit|s|items|members]; try done.
    destruct (visit_object env i members run)
      as (run1 & recs1 & -> & _ & Hs1 & _).
    intros [Hin | (j & w & Hj & Hsaved)]%IH.
    + rewrite Hs1 in Hin. apply elem_of_app in Hin as [Hin|Hin]; [by left|].
      right. exists 0, (Main.JObject members). split; [done|].
      rewrite Nat.add_0_r.
      destruct (Main.saved_for env i (Main.JObject members)) as [d|]; simpl in Hin.
      * by apply list_elem_of_singleton in Hin as ->.
      * by apply elem_of_nil in Hin.
    + right. exists (S j), w. split; [done|].
      by replace (i + S j)%nat with (S i + j)%nat by lia.
  - assert (Main.visit env i w run = (Some (Exc "AttributeError"), run)) as ->.
    { by destruct w. }
    by left.
Qed.

Lemma visit_all_app (env : Main.Env) (ws1 ws2 : list Main.Json) (i : nat)
    (run : Main.Run) :
  Main.visit_all env i (ws1 ++ ws2) run =
  match Main.visit_all env i ws1 run with
  | (Some e, run') => (Some e, run')
  | (None, run') => Main.visit_all env (i + List.length ws1) ws2 run'
  end.
Proof.
  revert i run. induction ws1 as [|w ws1 IH]; intros i run; simpl.
  - by rewrite Nat.add_0_r.
  - destruct (Main.visit env i w run) as [[e|] run']; [done|].
    rewrite IH. by replace (S i + List.length ws1)%nat with (i + S (List.length ws1))%nat by lia.
Qed.

(** The run of [main] on a configuration that passes the check, website
    by website. *)
Lemma main_on_websites (env : Main.Env) (members : gmap string Main.Json)
    (websites : list Main.Json) :
  Main.read_json env Main.CONFIG_FILE = Main.LoadReturns (Main.JObject members) →
  members !! "websites" = Some (Main.JArray websites) →
  websites ≠ [] →
  Main.main env =
  match Main.visit_all env 0 websites
          {| Main.log := [(Main.INFO, Main.Starting)]; Main.parse_calls := [];
             Main.save_calls := [] |} with
  | (Some e, run) => (Main.Raises e, run)
  | (None, run) => (Main.Returns, Main.logged run [(Main.INFO, Main.Completed)])
  end.
Proof.
  intros Hread Hw Hne. unfold Main.main, Main.load_config. rewrite Hread.
  assert (Main.check_websites (Main.JObject members) = None) as ->.
  { apply check_websites_passes. by eauto. }
  unfold Main.get. rewrite Hw; simpl.
  destruct websites as [|w ws]; [done|]. reflexivity.
Qed.

Example main_demo :
  (Main.main MainDemo.env).1 = Main.Returns ∧
  Main.parse_calls (Main.main MainDemo.env).2 =
    [(Main.JString "http://a", Main.JString "default");
     (Main.JString "http://c", Main.JString "default")] ∧
  Main.save_calls (Main.main MainDemo.env).2 =
    [<["source_config" := MainDemo.site "C" "http://c"]> MainDemo.extracted] ∧
  Main.log (Main.main MainDemo.env).2 =
    [(Main.INFO, Main.Starting);
     (Main.INFO, Main.Processing (Main.JString "A") (Main.JString "http://a")
                   (Main.JString "default"));
     (Main.ERROR, Main.Unexpected (Main.JString "A") (Main.JString "http://a")
                    (Exc "ConnectionError"));
     (Main.ERROR, Main.Skipping (Main.JString "B"));
     (Main.INFO, Main.Processing (Main.JString "C") (Main.JString "http://c")
                   (Main.JString "default"));
     (Main.INFO, Main.Extracted (Main.JString "C"));
     (Main.INFO, Main.SentToOutput (Main.JString "C"));
     (Main.INFO, Main.Completed)].
Proof. repeat split. Qed.

(** X17. The loop visits every website of the list, whatever happens at the
    others: when the list is not empty and every entry is an object, [main]
    returns after calling [parse_product_data] exactly for the entries with
    a URL, in order, and [save_data] exactly for those whose parse returned
    a non-empty dictionary; an exception of either function, a missing URL
    or an empty result ends only the turn of its own website. The log ends
    with the completion record and holds no other. *)
Theorem main_visits_every_website (env : Main.Env)
    (members : gmap string Main.Json) (websites : list Main.Json) :
  Main.read_json env Main.CONFIG_FILE = Main.LoadReturns (Main.JObject members) →
  members !! "websites" = Some (Main.JArray websites) →
  websites ≠ [] →
  forallb Main.is_object websites = true →
  (Main.main env).1 = Main.Returns ∧
  Main.parse_calls (Main.main env).2 = omap Main.call_for websites ∧
  Main.save_calls (Main.main env).2 =
    omap id (imap (Main.saved_for env) websites) ∧
  ∃ records,
    Main.log (Main.main env).2 =
      (Main.INFO, Main.Starting) :: records ++ [(Main.INFO, Main.Completed)] ∧
    (Main.INFO, Main.Completed) ∉ records.
Proof.
  intros Hread Hw Hne Hall. rewrite (main_on_websites _ _ _ Hread Hw Hne).
  destruct (visit_all_objects env websites 0
              {| Main.log := [(Main.INFO, Main.Starting)]; Main.parse_calls := [];
                 Main.save_calls := [] |} Hall)
    as (run & records & -> & Hp & Hs & Hl & Hc); simpl in *.
  repeat split; [done | done |]. exists records. by rewrite Hl.
Qed.

Lemma main_visits_every_website_witness :
  (Main.main MainDemo.env).1 = Main.Returns ∧
  Main.parse_calls (Main.main MainDemo.env).2 = omap Main.call_for MainDemo.websites ∧
  Main.save_calls (Main.main MainDemo.env).2 =
    omap id (imap (Main.saved_for MainDemo.env) MainDemo.websites) ∧
  ∃ records,
    Main.log (Main.main MainDemo.env).2 =
      (Main.INFO, Main.Starting) :: records ++ [(Main.INFO, Main.Completed)] ∧
    (Main.INFO, Main.Completed) ∉ records.
Proof.
  apply (main_visits_every_website MainDemo.env MainDemo.members MainDemo.websites).
  - reflexivity.
  - reflexivity.
  - discriminate.
  - reflexivity.
Defined.

(** X18. What [save_data] receives is the dictionary the parser returned
    for that website with [source_config] set to the entry of the
    configuration: the entry replaces a [source_config] of the parser's own,
    and every other key is passed on unchanged.  This holds of every call
    of [save_data], also in a run that an entry that is not an object ends
    early. *)
Theorem saved_data_carries_source_config (env : Main.Env)
    (members : gmap string Main.Json) (websites : list Main.Json)
    (data : gmap string Main.Json) :
  Main.read_json env Main.CONFIG_FILE = Main.LoadReturns (Main.JObject members) →
  members !! "websites" = Some (Main.JArray websites) →
  data ∈ Main.save_calls (Main.main env).2 →
  ∃ i website_info url parser_type extracted_data,
    websites !! i = Some website_info ∧
    Main.call_for website_info = Some (url, parser_type) ∧
    Main.parse_product_data env i url parser_type =
      Main.ParseReturns (Some extracted_data) ∧
    extracted_data ≠ ∅ ∧
    data !! "source_config" = Some website_info ∧
    ∀ k, k ≠ "source_config" → data !! k = extracted_data !! k.
Proof.
  intros Hread Hw Hdata.
  destruct (decide (websites = [])) as [-> | Hne].
  { unfold Main.main, Main.load_config in Hdata. rewrite Hread in Hdata.
    assert (Main.check_websites (Main.JObject members) = None) as Hc.
    { apply check_websites_passes. by eauto. }
    rewrite Hc in Hdata. unfold Main.get in Hdata. rewrite Hw in Hdata.
    simpl in Hdata. by apply elem_of_nil in Hdata. }
  rewrite (main_on_websites _ _ _ Hread Hw Hne) in Hdata.
  assert (data ∈ Main.save_calls
            (Main.visit_all env 0 websites
               {| Main.log := [(Main.INFO, Main.Starting)]; Main.parse_calls := [];
                  Main.save_calls := [] |}).2) as Hin.
  { by destruct (Main.visit_all env 0 websites _) as [[e|] run]. }
  apply visit_all_saves in Hin as [Hin | (i & w & Hi & Hsaved)].
  { by apply elem_of_nil in Hin. }
  simpl in Hsaved. exists i, w. unfold Main.saved_for in Hsaved.
  destruct (Main.call_for w) as [[url pt]|]; [|done].
  destruct (Main.parse_product_data env i url pt) as [[d|]|e] eqn:Hparse; try done.
  case_bool_decide as Hd; [done|]. injection Hsaved as Heq. subst data.
  exists url, pt, d. repeat split; try done.
  - apply lookup_insert_eq.
  - intros k Hk. by rewrite lookup_insert_ne.
Qed.

Lemma saved_data_carries_source_config_witness :
  ∃ i website_info url parser_type extracted_data,
    MainDemo.websites !! i = Some website_info ∧
    Main.call_for website_info = Some (url, parser_type) ∧
    Main.parse_product_data MainDemo.env i url parser_type =
      Main.ParseReturns (Some extracted_data) ∧
    extracted_data ≠ ∅ ∧
    (<["source_config" := MainDemo.site "C" "http://c"]> MainDemo.extracted)
      !! "source_config" = Some website_info ∧
    ∀ k, k ≠ "source_config" →
      (<["source_config" := MainDemo.site "C" "http://c"]> MainDemo.extracted) !! k =
      extracted_data !! k.
Proof.
  apply (saved_data_carries_source_config MainDemo.env MainDemo.members
           MainDemo.websites).
  - reflexivity.
  - reflexivity.
  - apply list_elem_of_here.
Defined.

(** X19. One entry that is not an object ends the run: [main] raises
    [AttributeError] at that entry, outside the [try] of the loop; the
    websites before it have been visited as usual, those after it are never
    visited, and the completion record is not logged. *)
Theorem malformed_entry_stops_the_run (env : Main.Env)
    (members : gmap string Main.Json) (before after : list Main.Json)
    (website_info : Main.Json) :
  Main.read_json env Main.CONFIG_FILE = Main.LoadReturns (Main.JObject members) →
  members !! "websites" = Some (Main.JArray (before ++ website_info :: after)) →
  forallb Main.is_object before = true →
  Main.is_object website_info = false →
  (Main.main env).1 = Main.Raises (Exc "AttributeError") ∧
  Main.parse_calls (Main.main env).2 = omap Main.call_for before ∧
  Main.save_calls (Main.main env).2 = omap id (imap (Main.saved_for env) before) ∧
  (Main.INFO, Main.Completed) ∉ Main.log (Main.main env).2.
Proof.
  intros Hread Hw Hall Hbad.
  rewrite (main_on_websites _ _ _ Hread Hw) by (by destruct before).
  rewrite visit_all_app.
  destruct (visit_all_objects env before 0
              {| Main.log := [(Main.INFO, Main.Starting)]; Main.parse_calls := [];
                 Main.save_calls := [] |} Hall)
    as (run & records & -> & Hp & Hs & Hl & Hc); simpl in *.
  assert (Main.visit env (List.length before) website_info run =
          (Some (Exc "AttributeError"), run)) as ->.
  { by destruct website_info. }
  simpl. repeat split; [done | done |]. rewrite Hl.
  intros [[=]|?]%elem_of_cons. done.
Qed.

Lemma malformed_entry_stops_the_run_witness :
  (Main.main MainDemo.broken_env).1 = Main.Raises (Exc "AttributeError") ∧
  Main.parse_calls (Main.main MainDemo.broken_env).2 =
    omap Main.call_for [MainDemo.site "A" "http://a"] ∧
  Main.save_calls (Main.main MainDemo.broken_env).2 =
    omap id (imap (Main.saved_for MainDemo.broken_env) [MainDemo.site "A" "http://a"]) ∧
  (Main.INFO, Main.Completed) ∉ Main.log (Main.main MainDemo.broken_env).2.
Proof.
  apply (malformed_entry_stops_the_run MainDemo.broken_env
           {[ "websites" :=
                Main.JArray [MainDemo.site "A" "http://a"; Main.JString "http://b";
                             MainDemo.site "C" "http://c"] ]}
           [MainDemo.site "A" "http://a"] [MainDemo.site "C" "http://c"]
           (Main.JString "http://b")); reflexivity.
Defined.

(** X20. A configuration that cannot be loaded is never parsed, and how
    [main] ends depends on the exception: status 1 for
    [FileNotFoundError], [JSONDecodeError] and [ValueError], while any other
    exception leaves [main] as it is.  So a file that holds valid JSON other
    than an object ends in [TypeError], not in status 1, unless it is an
    array or a string without ["websites"] in it. *)
Theorem unloadable_config (env : Main.Env) :
  (∀ r records,
     Main.load_config env Main.CONFIG_FILE = (inl r, records) →
     (Main.main env).1 =
       match Main.kind r with
       | Main.IsOtherException => Main.Raises (Main.exc r)
       | _ => Main.Exits 1
       end ∧
     Main.parse_calls (Main.main env).2 = [] ∧
     Main.save_calls (Main.main env).2 = []) ∧
  (∀ config,
     Main.read_json env Main.CONFIG_FILE = Main.LoadReturns config →
     Main.is_object config = false →
     (Main.main env).1 =
       match Main.websites_in config with
       | inr false => Main.Exits 1
       | _ => Main.Raises (Exc "TypeError")
       end).
Proof.
  split.
  - intros r records Hload. unfold Main.main. rewrite Hload.
    by destruct (Main.kind r).
  - intros config Hread Hobj. unfold Main.main, Main.load_config.
    rewrite Hread. unfold Main.check_websites.
    destruct config as [|b|nz lit|s|items|members]; simpl in *; try done.
    + by destruct (Main.contains "websites" s).
    + by destruct (existsb (Main.is_string "websites") items).
Qed.

Lemma unloadable_config_witness :
  (Main.main MainDemo.number_env).1 = Main.Raises (Exc "TypeError").
Proof.
  apply (proj2 (unloadable_config MainDemo.number_env) (Main.JNumber true "42"));
    reflexivity.
Defined.

